(** * brainfuck2c: a shallow embedding of the Brainfuck-to-C transpiler

    The development follows [brainfuck2c.c] phase by phase: the lexer
    ([lex]), the parser ([parseLevel], [parseTokens]), the generator
    ([print_indent], [generate_code]) and the driver ([main]).

    Modelling conventions.
    - A C [int] that is stored in a struct and printed with [%d] ([pos],
      [count], [numChildren]) is a [Z].  The model covers the executions
      in which no [int] overflows (overflow of a signed [int] is undefined
      in C); [lex_pos_bound], [lex_length] and [parse_count_bound] bound
      every such number by the length of the source.
    - A cursor into an array (the cell behind the pointer [index]) and an
      indentation level are [nat].
    - An array together with its element count is a [list].
    - [exit(EXIT_FAILURE)] after a diagnostic is the result [Exit d]: it
      propagates through every caller, as the process is gone.
    - [malloc] and [realloc] are taken to succeed; the capacity doubling of
      the two dynamic arrays has then no observable effect and is left out
      of [lex] and [parseLevel]; [lex_alloc] and [parseLevel_alloc] keep it,
      and [free_ast] is modelled by the arrays it hands to [free]. *)

From Stdlib Require Import ZArith List String Ascii Bool Lia Sorted Permutation.
From Stdlib Require Import DecimalString DecimalZ DecimalPos.
Import ListNotations.

Set Warnings "-register-all".

Local Open Scope string_scope.
Local Open Scope list_scope.
Local Open Scope Z_scope.

(** Concatenation of output text; [++] is kept for arrays. *)
Infix "+++" := String.append (right associativity, at level 60).

(* ================================================================= *)
(** ** Lexer phase *)

Inductive TokenType : Type :=
| TOKEN_PLUS        (* '+' *)
| TOKEN_MINUS       (* '-' *)
| TOKEN_NEXT        (* '>' *)
| TOKEN_PREVIOUS    (* '<' *)
| TOKEN_OUTPUT      (* '.' *)
| TOKEN_INPUT       (* ',' *)
| TOKEN_LOOP_START  (* '[' *)
| TOKEN_LOOP_END.   (* ']' *)

Definition TokenType_eqb (a b : TokenType) : bool :=
  match a, b with
  | TOKEN_PLUS, TOKEN_PLUS | TOKEN_MINUS, TOKEN_MINUS
  | TOKEN_NEXT, TOKEN_NEXT | TOKEN_PREVIOUS, TOKEN_PREVIOUS
  | TOKEN_OUTPUT, TOKEN_OUTPUT | TOKEN_INPUT, TOKEN_INPUT
  | TOKEN_LOOP_START, TOKEN_LOOP_START | TOKEN_LOOP_END, TOKEN_LOOP_END => true
  | _, _ => false
  end.

Record Token : Type := mkToken { type : TokenType; pos : Z }.

(** The terminator of a C string. *)
Definition NUL : ascii := "000"%char.

(** The [switch (c)] of [lex]: [None] is the [default: continue]. *)
Definition token_of_char (c : ascii) : option TokenType :=
  match c with
  | "+"%char => Some TOKEN_PLUS
  | "-"%char => Some TOKEN_MINUS
  | ">"%char => Some TOKEN_NEXT
  | "<"%char => Some TOKEN_PREVIOUS
  | "."%char => Some TOKEN_OUTPUT
  | ","%char => Some TOKEN_INPUT
  | "["%char => Some TOKEN_LOOP_START
  | "]"%char => Some TOKEN_LOOP_END
  | _ => None
  end.

(** The loop [for (int i = 0; src[i] != '\0'; i++)].  [src] is what is left
    of the buffer from cell [i] on; the end of the buffer is the ['\0'] that
    [main] stores at [source[fsize]], and a NUL byte inside the buffer ends
    the loop in the same way. *)
Fixpoint lex_loop (src : string) (i : Z) (tokens : list Token) : list Token :=
  match src with
  | EmptyString => tokens
  | String c rest =>
      if Ascii.eqb c NUL then tokens
      else match token_of_char c with
           | Some t => lex_loop rest (i + 1) (tokens ++ [mkToken t i])
           | None => lex_loop rest (i + 1) tokens
           end
  end.

(** [lex src]: the token array; the count stored through [numTokens] is
    its length. *)
Definition lex (src : string) : list Token := lex_loop src 0 [].

(* ================================================================= *)
(** ** Parser phase *)

(** [struct ASTNode].  [children] is a pointer: [None] is [NULL], [Some l]
    an allocated array holding [l]. *)
Inductive ASTNode : Type :=
  mkASTNode {
    node_type : TokenType;              (* the field [type] *)
    count : Z;
    children : option (list ASTNode);
    numChildren : Z
  }.

(** The two diagnostics after which [parseLevel] calls [exit]. *)
Inductive Diagnostic : Type :=
| UnmatchedClose (position : Z)   (* "Error: Unmatched ']' at position %d\n" *)
| UnmatchedOpen.                  (* "Error: Unmatched '[' detected\n" *)

(** What a call gives: a value, the end of the process, or the model's
    recursion bound reached ([parseLevel_fuel] shows it never is). *)
Inductive outcome (A : Type) : Type :=
| Ret (a : A)
| Exit (d : Diagnostic)
| OutOfFuel.
Arguments Ret {A} a.
Arguments Exit {A} d.
Arguments OutOfFuel {A}.

Definition bind {A B : Type} (m : outcome A) (k : A -> outcome B) : outcome B :=
  match m with
  | Ret a => k a
  | Exit d => Exit d
  | OutOfFuel => OutOfFuel
  end.

Notation "' p <- m ;; k" := (bind m (fun p => k))
  (at level 61, p pattern, m at next level, right associativity).

(** The merge loop
    [while (index < numTokens && tokens[index].type == type) { repeat++; index++; }]
    (with [index] for the cell the pointer [index] of the source points
    to), run over the cells [tokens[index ..]] = [rest]; it gives the final
    [repeat] and [index]. *)
Fixpoint merge_loop (rest : list Token) (ty : TokenType) (repeat : Z) (index : nat)
  : Z * nat :=
  match rest with
  | t :: rest' =>
      if TokenType_eqb (type t) ty then merge_loop rest' ty (repeat + 1) (S index)
      else (repeat, index)
  | [] => (repeat, index)
  end.

(** The test of the third branch of [parseLevel]: one of the six kinds that
    are merged. *)
Definition is_primitive (ty : TokenType) : bool :=
  TokenType_eqb ty TOKEN_PLUS || TokenType_eqb ty TOKEN_MINUS ||
  TokenType_eqb ty TOKEN_NEXT || TokenType_eqb ty TOKEN_PREVIOUS ||
  TokenType_eqb ty TOKEN_OUTPUT || TokenType_eqb ty TOKEN_INPUT.

(** [parseLevel]: one unit of [fuel] per iteration of the [while] loop;
    [nodes] is the array built so far ([count] is its length), and the
    result is the array returned with the final value of the cursor. *)
Fixpoint parseLevel (fuel : nat) (tokens : list Token) (index : nat)
    (nodes : list ASTNode) (insideLoop : bool) : outcome (list ASTNode * nat) :=
  match fuel with
  | O => OutOfFuel
  | S fuel' =>
      match nth_error tokens index with
      | None =>
          (* the cursor has reached [numTokens]: the loop is left *)
          if insideLoop then Exit UnmatchedOpen else Ret (nodes, index)
      | Some current =>
          if TokenType_eqb (type current) TOKEN_LOOP_END then
            if negb insideLoop then Exit (UnmatchedClose (pos current))
            else Ret (nodes, S index)
          else if TokenType_eqb (type current) TOKEN_LOOP_START then
            ' (children, index') <- parseLevel fuel' tokens (S index) [] true ;;
            let node := mkASTNode TOKEN_LOOP_START 0 (Some children)
                                  (Z.of_nat (List.length children)) in
            parseLevel fuel' tokens index' (nodes ++ [node]) insideLoop
          else if is_primitive (type current) then
            let ty := type current in
            let '(repeat, index') := merge_loop (skipn index tokens) ty 0 index in
            let node := mkASTNode ty repeat None 0 in
            parseLevel fuel' tokens index' (nodes ++ [node]) insideLoop
          else
            (* no value of the enumeration reaches this branch *)
            parseLevel fuel' tokens (S index) nodes insideLoop
      end
  end.

(** [parseTokens]: the root level, from index 0, outside any loop.  Every
    iteration but the last of a level consumes a token, so [numTokens + 1]
    iterations are enough at any depth. *)
Definition parseTokens (tokens : list Token) : outcome (list ASTNode) :=
  ' (nodes, _) <- parseLevel (S (List.length tokens)) tokens 0%nat [] false ;;
  Ret nodes.

(* ================================================================= *)
(** ** Generator phase *)

(** The line feed the source writes as [\n]. *)
Definition LF : string := String "010"%char EmptyString.

(** The conversion [%d] of [printf]. *)
Definition printf_d (n : Z) : string := NilZero.string_of_int (Z.to_int n).

Fixpoint print_indent (level : nat) : string :=
  match level with
  | O => EmptyString
  | S level' => "    " +++ print_indent level'
  end.

(** The loop [for (int i = 0; i < numNodes; i++)] over [nodes[i]]. *)
Definition for_each_node (body : ASTNode -> string)
  : list ASTNode -> nat -> string :=
  fix loop (nodes : list ASTNode) (numNodes : nat) : string :=
    match numNodes, nodes with
    | S n, node :: rest => body node +++ loop rest n
    | _, _ => EmptyString
    end.

(** The [switch (node.type)] of [generate_code], for one node.  A loop node
    of a parsed tree always owns an array; for a [NULL] array nothing is
    generated between the braces. *)
Fixpoint generate_node (node : ASTNode) (indent_level : nat) {struct node} : string :=
  match node with
  | mkASTNode ty cnt ch numCh =>
      match ty with
      | TOKEN_PLUS =>
          print_indent indent_level +++ "*ptr += " +++ printf_d cnt +++ ";" +++ LF
      | TOKEN_MINUS =>
          print_indent indent_level +++ "*ptr -= " +++ printf_d cnt +++ ";" +++ LF
      | TOKEN_NEXT =>
          print_indent indent_level +++ "ptr += " +++ printf_d cnt +++ ";" +++ LF
      | TOKEN_PREVIOUS =>
          print_indent indent_level +++ "ptr -= " +++ printf_d cnt +++ ";" +++ LF
      | TOKEN_OUTPUT =>
          if cnt =? 1 then
            print_indent indent_level +++ "putchar(*ptr);" +++ LF
          else
            print_indent indent_level
              +++ "for (int i = 0; i < " +++ printf_d cnt +++ "; i++) {" +++ LF
              +++ print_indent (S indent_level) +++ "putchar(*ptr);" +++ LF
              +++ print_indent indent_level +++ "}" +++ LF
      | TOKEN_INPUT =>
          if cnt =? 1 then
            print_indent indent_level +++ "*ptr = getchar();" +++ LF
          else
            print_indent indent_level
              +++ "for (int i = 0; i < " +++ printf_d cnt +++ "; i++) {" +++ LF
              +++ print_indent (S indent_level) +++ "*ptr = getchar();" +++ LF
              +++ print_indent indent_level +++ "}" +++ LF
      | TOKEN_LOOP_START =>
          print_indent indent_level +++ "while (*ptr) {" +++ LF
            +++ match ch with
                | Some nodes =>
                    for_each_node (fun child => generate_node child (S indent_level))
                                  nodes (Z.to_nat numCh)
                | None => EmptyString
                end
            +++ print_indent indent_level +++ "}" +++ LF
      | TOKEN_LOOP_END => EmptyString   (* [default: break] *)
      end
  end.

(** [generate_code]: what the call writes to the standard output. *)
Definition generate_code (nodes : list ASTNode) (numNodes : Z) (indent_level : nat)
  : string :=
  for_each_node (fun node => generate_node node indent_level) nodes (Z.to_nat numNodes).

(* ================================================================= *)
(** ** Main function *)

Definition TAPE_SIZE : Z := 30000.
(** The failure status of [<stdlib.h>]: 1 where the program is built with
    the usual C libraries, and never 0. *)
Definition EXIT_FAILURE : Z := 1.

(** The text [parseLevel] writes to the error stream before [exit]. *)
Definition diagnostic (d : Diagnostic) : string :=
  match d with
  | UnmatchedClose position =>
      "Error: Unmatched ']' at position " +++ printf_d position +++ LF
  | UnmatchedOpen => "Error: Unmatched '[' detected" +++ LF
  end.

(** What the process finds outside: the files [fopen] can or cannot open
    (with the text [perror] then appends), and the standard input.  A stream
    is taken to be seekable and read whole by [fread]. *)
Inductive fopen_result : Type :=
| Opened (contents : string)
| Failed (strerror : string).

Record Env : Type := mkEnv {
  fopen : string -> fopen_result;
  stdin : string
}.

(** What the process leaves: both streams and the exit status. *)
Record Process : Type := mkProcess {
  stdout : string;
  stderr : string;
  status : Z
}.

(** The first lines of [main]: [fp] is [stdin], or [argv[1]] when
    [argc > 1]; every further argument is ignored. *)
Definition read_source (argv : list string) (env : Env) : fopen_result :=
  match argv with
  | _ :: path :: _ => fopen env path
  | _ => Opened (stdin env)
  end.

Definition preamble : string :=
  "#include <stdio.h>" +++ LF
  +++ "#include <stdlib.h>" +++ LF +++ LF
  +++ "#define TAPE_SIZE " +++ printf_d TAPE_SIZE +++ LF +++ LF
  +++ "int main(void) {" +++ LF
  +++ "    unsigned char array[TAPE_SIZE] = {0};" +++ LF
  +++ "    unsigned char *ptr = array;" +++ LF +++ LF.

Definition epilogue : string :=
  LF +++ "    return 0;" +++ LF +++ "}" +++ LF.

(** [main]: [None] only if the parser's recursion bound were reached
    ([main_total] shows it is not). *)
Definition main (argv : list string) (env : Env) : option Process :=
  match read_source argv env with
  | Failed strerror =>
      Some (mkProcess EmptyString
                      ("Error opening input file: " +++ strerror +++ LF)
                      EXIT_FAILURE)
  | Opened source =>
      let tokens := lex source in
      match parseTokens tokens with
      | Exit d => Some (mkProcess EmptyString (diagnostic d) EXIT_FAILURE)
      | Ret ast =>
          let numASTNodes := Z.of_nat (List.length ast) in
          Some (mkProcess (preamble +++ generate_code ast numASTNodes 1 +++ epilogue)
                          EmptyString 0)
      | OutOfFuel => None
      end
  end.

(** A run on the standard input alone. *)
Definition run_stdin (source : string) : option Process :=
  main ["brainfuck2c"%string] (mkEnv (fun _ => Failed "No such file or directory") source).


(* ================================================================= *)
(** ** Memory: the dynamic arrays and [free_ast] *)






(** The loop [for (int i = 0; i < numNodes; i++)] of [free_ast], giving the
    arrays handed to [free], in the order of the calls. *)
Definition for_each_free (body : ASTNode -> list (list ASTNode))
  : list ASTNode -> nat -> list (list ASTNode) :=
  fix loop (nodes : list ASTNode) (numNodes : nat) : list (list ASTNode) :=
    match numNodes, nodes with
    | S n, node :: rest => body node ++ loop rest n
    | _, _ => []
    end.

(** The body of that loop: for a loop node with an array, [free_ast] on
    the array and then [free] of the array itself. *)
Fixpoint free_ast_node (node : ASTNode) : list (list ASTNode) :=
  match node with
  | mkASTNode ty _ ch numCh =>
      match ty, ch with
      | TOKEN_LOOP_START, Some kids =>
          for_each_free free_ast_node kids (Z.to_nat numCh) ++ [kids]
      | _, _ => []
      end
  end.

Definition free_ast (nodes : list ASTNode) (numNodes : Z) : list (list ASTNode) :=
  for_each_free free_ast_node nodes (Z.to_nat numNodes).

(** The last lines of [main]: [free_ast(ast, numASTNodes); free(ast);]. *)
Definition cleanup (ast : list ASTNode) : list (list ASTNode) :=
  free_ast ast (Z.of_nat (List.length ast)) ++ [ast].

(* ================================================================= *)
(** ** Reference notions the statements are written with *)

(** The content of a C string: the bytes before the first NUL. *)
Fixpoint c_string (src : string) : string :=
  match src with
  | EmptyString => EmptyString
  | String c rest => if Ascii.eqb c NUL then EmptyString else String c (c_string rest)
  end.

(** The instruction symbols of a text, in order. *)
Fixpoint instructions (src : string) : list TokenType :=
  match src with
  | EmptyString => []
  | String c rest =>
      match token_of_char c with
      | Some t => t :: instructions rest
      | None => instructions rest
      end
  end.

(** The byte at a zero-based index of the source. *)
Definition byte_at (src : string) (i : Z) : option ascii :=
  if i <? 0 then None else String.get (Z.to_nat i) src.

(** A token stands where its symbol stands in [src]. *)
Definition token_at_its_byte (src : string) (t : Token) : Prop :=
  exists c, byte_at src (pos t) = Some c /\ token_of_char c = Some (type t).

(** Bracket matching with a depth counter, the reference the parser is
    compared with: [None] when every loop marker has its partner, else the
    first defect met from the left ([depth] loops are open at the start). *)
Fixpoint bracket_check (tokens : list Token) (depth : nat) : option Diagnostic :=
  match tokens with
  | [] => match depth with O => None | S _ => Some UnmatchedOpen end
  | t :: rest =>
      match type t with
      | TOKEN_LOOP_START => bracket_check rest (S depth)
      | TOKEN_LOOP_END =>
          match depth with
          | O => Some (UnmatchedClose (pos t))
          | S depth' => bracket_check rest depth'
          end
      | _ => bracket_check rest depth
      end
  end.

(** Open and close markers of a token sequence, counted. *)
Definition count_type (ty : TokenType) (tokens : list Token) : nat :=
  List.length (filter (fun t => TokenType_eqb (type t) ty) tokens).

(** The tokens of one level and the nodes they stand for: a loop is an
    open marker, the tokens of its body and a close marker; a repeated
    operation is a run of one primitive kind that cannot be extended to the
    right. *)
Inductive Items : list Token -> list ASTNode -> Prop :=
| Items_nil : Items [] []
| Items_loop (o c : Token) (body rest : list Token) (kids nodes : list ASTNode) :
    type o = TOKEN_LOOP_START -> type c = TOKEN_LOOP_END ->
    Items body kids -> Items rest nodes ->
    Items (o :: body ++ c :: rest)
          (mkASTNode TOKEN_LOOP_START 0 (Some kids) (Z.of_nat (List.length kids)) :: nodes)
| Items_run (ty : TokenType) (run rest : list Token) (nodes : list ASTNode) :
    is_primitive ty = true -> run <> [] ->
    Forall (fun t => type t = ty) run ->
    (forall t rest', rest = t :: rest' -> type t <> ty) ->
    Items rest nodes ->
    Items (run ++ rest) (mkASTNode ty (Z.of_nat (List.length run)) None 0 :: nodes).

(** The token kinds a tree stands for, read back in order. *)
Fixpoint flatten_node (node : ASTNode) : list TokenType :=
  match node with
  | mkASTNode ty cnt ch _ =>
      match ch with
      | Some kids => [TOKEN_LOOP_START] ++ flat_map flatten_node kids ++ [TOKEN_LOOP_END]
      | None => repeat ty (Z.to_nat cnt)
      end
  end.

Definition flatten (nodes : list ASTNode) : list TokenType :=
  flat_map flatten_node nodes.

(** Two neighbours that a maximal merge would have made one node. *)
Definition same_kind (a b : ASTNode) : bool :=
  is_primitive (node_type a) && TokenType_eqb (node_type a) (node_type b).

Fixpoint no_adjacent_same_kind (nodes : list ASTNode) : bool :=
  match nodes with
  | a :: (b :: _) as rest => negb (same_kind a b) && no_adjacent_same_kind rest
  | _ => true
  end.

(** The merging invariant, at every level of a tree: no two neighbours of
    one primitive kind, and a count of at least 1 in every repeated
    operation. *)
Fixpoint merged_node (node : ASTNode) : bool :=
  match node with
  | mkASTNode ty cnt ch _ =>
      (if is_primitive ty then 1 <=? cnt else true)
      && match ch with
         | Some kids => no_adjacent_same_kind kids && forallb merged_node kids
         | None => true
         end
  end.

Definition merged (nodes : list ASTNode) : bool :=
  no_adjacent_same_kind nodes && forallb merged_node nodes.

(** The two shapes of a node: a loop (count 0, an array of [numChildren]
    cells) or a repeated operation (no array, [numChildren] 0). *)
Definition node_shape (node : ASTNode) : bool :=
  match node_type node with
  | TOKEN_LOOP_END => false
  | TOKEN_LOOP_START =>
      (count node =? 0)
      && match children node with
         | Some kids => numChildren node =? Z.of_nat (List.length kids)
         | None => false
         end
  | _ =>
      match children node with Some _ => false | None => true end
      && (numChildren node =? 0)
  end.

Fixpoint shaped_node (node : ASTNode) : bool :=
  node_shape node
  && match node with
     | mkASTNode _ _ (Some kids) _ => forallb shaped_node kids
     | mkASTNode _ _ None _ => true
     end.

Definition shaped (nodes : list ASTNode) : bool := forallb shaped_node nodes.

(** The loops of a tree in the order they are met, each with the number of
    loops around it and whether its body is empty. *)
Fixpoint loop_profile_node (depth : nat) (node : ASTNode) : list (nat * bool) :=
  match node with
  | mkASTNode ty _ ch _ =>
      match ty, ch with
      | TOKEN_LOOP_START, Some kids =>
          (depth, match kids with [] => true | _ => false end)
            :: flat_map (loop_profile_node (S depth)) kids
      | _, _ => []
      end
  end.

Definition loop_profile (depth : nat) (nodes : list ASTNode) : list (nat * bool) :=
  flat_map (loop_profile_node depth) nodes.

(** The open markers of a token sequence in order, each with the number of
    loops open before it and whether a close marker follows at once. *)
Fixpoint open_profile (depth : nat) (tokens : list Token) : list (nat * bool) :=
  match tokens with
  | [] => []
  | t :: rest =>
      match type t with
      | TOKEN_LOOP_START =>
          (depth, match rest with
                  | c :: _ => TokenType_eqb (type c) TOKEN_LOOP_END
                  | [] => false
                  end) :: open_profile (S depth) rest
      | TOKEN_LOOP_END => open_profile (Nat.pred depth) rest
      | _ => open_profile depth rest
      end
  end.

(** The deepest nesting of a tree: the largest number of loops, one inside
    the other ([depth] loops are around the node). *)
Fixpoint node_depth (depth : nat) (node : ASTNode) : nat :=
  match node with
  | mkASTNode ty _ ch _ =>
      match ty, ch with
      | TOKEN_LOOP_START, Some kids =>
          Nat.max (S depth)
                  (fold_right (fun kid m => Nat.max (node_depth (S depth) kid) m) O kids)
      | _, _ => O
      end
  end.

Definition nodes_depth (depth : nat) (nodes : list ASTNode) : nat :=
  fold_right (fun node m => Nat.max (node_depth depth node) m) O nodes.

Definition ast_depth (nodes : list ASTNode) : nat := nodes_depth 0 nodes.

(** The deepest nesting of a token sequence: the largest number of loops
    open at once. *)
Fixpoint tokens_depth (depth : nat) (tokens : list Token) : nat :=
  match tokens with
  | [] => O
  | t :: rest =>
      match type t with
      | TOKEN_LOOP_START => Nat.max (S depth) (tokens_depth (S depth) rest)
      | TOKEN_LOOP_END => tokens_depth (Nat.pred depth) rest
      | _ => tokens_depth depth rest
      end
  end.

Definition source_depth (tokens : list Token) : nat := tokens_depth 0 tokens.


(** Markers correctly nested: no prefix closes more loops than it opened
    ([depth] loops being open at the start). *)
Definition nested_from (depth : nat) (tokens : list Token) : Prop :=
  forall n, (count_type TOKEN_LOOP_END (firstn n tokens)
             <= depth + count_type TOKEN_LOOP_START (firstn n tokens))%nat.

Definition well_nested (tokens : list Token) : Prop := nested_from 0 tokens.

(** The end of a level: inside a loop the close marker [c] that ends it,
    at the root the end of the array. *)
Definition level_end (tokens : list Token) (index : nat) (consumed : list Token)
    (index' : nat) (insideLoop : bool) : Prop :=
  if insideLoop then
    exists c, type c = TOKEN_LOOP_END /\
              skipn index tokens = consumed ++ c :: skipn index' tokens /\
              index' = S (index + List.length consumed)
  else
    skipn index tokens = consumed /\ skipn index' tokens = [] /\
    index' = (index + List.length consumed)%nat.

(** The arrays of a tree: the root array, and the array of every node of
    an array of the tree. *)
Inductive Level (root : list ASTNode) : list ASTNode -> Prop :=
| Level_root : Level root root
| Level_body (level kids : list ASTNode) (parent : ASTNode) :
    Level root level -> In parent level -> children parent = Some kids ->
    Level root kids.

(** The statements of a write or read node: the call itself, and the
    counted loop around the call with the literal [bound] as its bound. *)
Definition io_call (ty : TokenType) : string :=
  match ty with
  | TOKEN_OUTPUT => "putchar(*ptr);"
  | _ => "*ptr = getchar();"
  end.

Definition direct_statement (ty : TokenType) (indent_level : nat) : string :=
  print_indent indent_level +++ io_call ty +++ LF.

Definition counted_loop (bound : string) (ty : TokenType) (indent_level : nat) : string :=
  print_indent indent_level +++ "for (int i = 0; i < " +++ bound +++ "; i++) {" +++ LF
  +++ direct_statement ty (S indent_level)
  +++ print_indent indent_level +++ "}" +++ LF.

(** The statement for a count: direct for 1, else the loop bounded by the
    count as [printf] writes it. *)
Definition io_statement (ty : TokenType) (cnt : Z) (indent_level : nat) : string :=
  if cnt =? 1 then direct_statement ty indent_level
  else counted_loop (printf_d cnt) ty indent_level.

(** The number a decimal literal of the generated text denotes. *)
Definition literal_value (s : string) : option Z :=
  option_map Z.of_int (NilZero.int_of_string s).

(** The generated text opens with the definition of TAPE_SIZE as [n]. *)
Definition declares_tape_size (n : Z) (out : string) : bool :=
  String.prefix ("#include <stdio.h>" +++ LF +++ "#include <stdlib.h>" +++ LF +++ LF
                 +++ "#define TAPE_SIZE " +++ printf_d n +++ LF) out.

(** A text with no NUL byte: the whole of it is the C string. *)
Fixpoint no_NUL (src : string) : bool :=
  match src with
  | EmptyString => true
  | String c rest => negb (Ascii.eqb c NUL) && no_NUL rest
  end.

(** A token moved [k] bytes to the right. *)
Definition shift_pos (k : Z) (t : Token) : Token := mkToken (type t) (pos t + k).

(** A tree in the form the parser builds: merged and with the two shapes. *)
Definition canonical (nodes : list ASTNode) : bool := merged nodes && shaped nodes.

(** Matching of one pair of delimiters in a text: the number of [opening]
    delimiters still open after the text, [depth] being open before it;
    [None] when a [closing] one has no partner. *)
Fixpoint delimiter_check (opening closing : ascii) (text : string) (depth : nat)
  : option nat :=
  match text with
  | EmptyString => Some depth
  | String c rest =>
      if Ascii.eqb c opening then delimiter_check opening closing rest (S depth)
      else if Ascii.eqb c closing then
        match depth with
        | O => None
        | S depth' => delimiter_check opening closing rest depth'
        end
      else delimiter_check opening closing rest depth
  end.

Definition brace_check : string -> nat -> option nat :=
  delimiter_check "{"%char "}"%char.
Definition paren_check : string -> nat -> option nat :=
  delimiter_check "("%char ")"%char.

(** A text with none of the delimiters of the generated code. *)
Fixpoint no_delimiter (text : string) : bool :=
  match text with
  | EmptyString => true
  | String c rest =>
      negb (Ascii.eqb c "{"%char) && negb (Ascii.eqb c "}"%char)
      && negb (Ascii.eqb c "("%char) && negb (Ascii.eqb c ")"%char)
      && no_delimiter rest
  end.

(** The four kinds that become one assignment, and what stands before
    the number in it. *)
Definition is_arithmetic (ty : TokenType) : bool :=
  match ty with
  | TOKEN_PLUS | TOKEN_MINUS | TOKEN_NEXT | TOKEN_PREVIOUS => true
  | _ => false
  end.

Definition assignment_target (ty : TokenType) : string :=
  match ty with
  | TOKEN_PLUS => "*ptr += "
  | TOKEN_MINUS => "*ptr -= "
  | TOKEN_NEXT => "ptr += "
  | _ => "ptr -= "
  end.

(** A source of [n] copies of one byte. *)
Fixpoint repeat_byte (c : ascii) (n : nat) : string :=
  match n with
  | O => EmptyString
  | S n' => String c (repeat_byte c n')
  end.


(** The arrays of a tree, each with the arrays below it: the root array
    and the array of every node that has one. *)
Fixpoint node_arrays (node : ASTNode) : list (list ASTNode) :=
  match node with
  | mkASTNode _ _ (Some kids) _ => kids :: flat_map node_arrays kids
  | mkASTNode _ _ None _ => []
  end.

Definition tree_arrays (nodes : list ASTNode) : list (list ASTNode) :=
  nodes :: flat_map node_arrays nodes.

(** A text with every line moved one indentation step to the right:
    four spaces before the first byte of each line. *)
Fixpoint indent_text (at_line_start : bool) (text : string) : string :=
  match text with
  | EmptyString => EmptyString
  | String c rest =>
      (if at_line_start then "    " else EmptyString)
      +++ String c (indent_text (Ascii.eqb c "010"%char) rest)
  end.

(** A text within one line. *)
Fixpoint no_LF (text : string) : bool :=
  match text with
  | EmptyString => true
  | String c rest => negb (Ascii.eqb c "010"%char) && no_LF rest
  end.

(* ================================================================= *)
(** ** Proof steps for texts made of pieces *)

(** One piece of a text after the other, for [delimiter_check]: a piece
    without delimiters ([plain], by one of the rules [indent] and
    [number], or read through), a literal piece read through, or a piece
    already known to be matched.  [app] moves to the next piece. *)
Ltac delimiter_piece plain indent number :=
  first [ apply plain; first [ apply indent | apply number | reflexivity ]
        | reflexivity
        | solve [ auto ] ].

Ltac delimiter_pieces app plain indent number :=
  repeat (erewrite app by delimiter_piece plain indent number);
  delimiter_piece plain indent number.

(** The lines of a statement, one byte after the other, for [indent_text]:
    the start of a line ([start]), a number within a line ([within], by
    [number]), the code of the children ([kids]), and literal bytes. *)
Ltac indent_lines assoc start within number kids bytes :=
  rewrite ?assoc;
  repeat first
    [ rewrite start by reflexivity
    | rewrite within by apply number
    | rewrite kids
    | progress bytes ];
  rewrite ?assoc; reflexivity.

(* ================================================================= *)
(** ** The lexer *)

Lemma lex_loop_acc (src : string) :
  forall i tokens, lex_loop src i tokens = tokens ++ lex_loop src i [].
Proof.
  induction src as [|c rest IH]; intros i tokens; simpl.
  - now rewrite app_nil_r.
  - destruct (Ascii.eqb c NUL); [now rewrite app_nil_r|].
    destruct (token_of_char c) as [t|]; [|apply IH].
    rewrite (IH _ (tokens ++ _)), (IH _ [_]), <- app_assoc. reflexivity.
Qed.

(** One step of the loop, with the array built so far set apart. *)
Lemma lex_loop_cons (c : ascii) (rest : string) (i : Z) :
  lex_loop (String c rest) i [] =
  if Ascii.eqb c NUL then []
  else match token_of_char c with
       | Some t => mkToken t i :: lex_loop rest (i + 1) []
       | None => lex_loop rest (i + 1) []
       end.
Proof.
  simpl. destruct (Ascii.eqb c NUL); [reflexivity|].
  destruct (token_of_char c); [|reflexivity].
  now rewrite lex_loop_acc.
Qed.

Lemma NUL_not_instruction : token_of_char NUL = None.
Proof. reflexivity. Qed.

(** The kinds of the tokens are the instruction symbols of the C string. *)
Lemma lex_loop_types (src : string) :
  forall i, map type (lex_loop src i []) = instructions (c_string src).
Proof.
  induction src as [|c rest IH]; intros i; [reflexivity|].
  rewrite lex_loop_cons. simpl c_string.
  destruct (Ascii.eqb c NUL); [reflexivity|]. simpl instructions.
  destruct (token_of_char c); simpl; now rewrite IH.
Qed.

Lemma lex_types (src : string) : map type (lex src) = instructions (c_string src).
Proof. apply lex_loop_types. Qed.

Lemma c_string_skip (pre : string) (c : ascii) (post : string) :
  token_of_char c = None -> c <> NUL ->
  instructions (c_string (pre +++ String c post)) =
  instructions (c_string (pre +++ post)).
Proof.
  intros Hc Hn. induction pre as [|a pre IH]; simpl.
  - destruct (Ascii.eqb_spec c NUL) as [->|_]; [contradiction|].
    simpl. now rewrite Hc.
  - destruct (Ascii.eqb a NUL); [reflexivity|]. simpl. now rewrite IH.
Qed.

(** Every token of [lex_loop src i []] has an offset from [i] on, stands
    for the byte [pos - i] of [src], and the offsets increase. *)
Lemma lex_loop_pos (src : string) :
  forall i,
    Forall (fun t => i <= pos t < i + Z.of_nat (String.length src) /\
                     exists c, String.get (Z.to_nat (pos t - i)) src = Some c /\
                               token_of_char c = Some (type t))
           (lex_loop src i []) /\
    StronglySorted Z.lt (map pos (lex_loop src i [])).
Proof.
  induction src as [|c rest IH]; intros i.
  - split; constructor.
  - rewrite lex_loop_cons.
    destruct (Ascii.eqb c NUL); [split; constructor|].
    destruct (IH (i + 1)) as [Hall Hsort].
    assert (Hshift :
      Forall (fun t => i <= pos t < i + Z.of_nat (String.length (String c rest)) /\
                       exists c0, String.get (Z.to_nat (pos t - i)) (String c rest) = Some c0 /\
                                  token_of_char c0 = Some (type t))
             (lex_loop rest (i + 1) [])).
    { eapply Forall_impl; [|exact Hall].
      intros t [Hr [c0 [Hget Hty]]]. cbn [String.length]. split; [lia|].
      exists c0. split; [|exact Hty].
      replace (Z.to_nat (pos t - i)) with (S (Z.to_nat (pos t - (i + 1)))) by lia.
      exact Hget. }
    destruct (token_of_char c) as [ty|] eqn:Hc; [|split; assumption].
    split.
    + constructor; [|exact Hshift]. cbn [pos type String.length]. split; [lia|].
      exists c. rewrite Z.sub_diag. split; [reflexivity|exact Hc].
    + cbn [map pos]. constructor; [exact Hsort|].
      rewrite Forall_map. eapply Forall_impl; [|exact Hall].
      intros t [Hr _]. lia.
Qed.





(* ================================================================= *)
(** ** The parser, one iteration at a time *)

Lemma TokenType_eqb_spec (a b : TokenType) : reflect (a = b) (TokenType_eqb a b).
Proof. destruct a, b; constructor; congruence. Qed.

Lemma TokenType_eqb_refl (a : TokenType) : TokenType_eqb a a = true.
Proof. now destruct a. Qed.

Lemma type_cases (ty : TokenType) :
  ty = TOKEN_LOOP_END \/ ty = TOKEN_LOOP_START \/ is_primitive ty = true.
Proof. destruct ty; auto. Qed.

Lemma primitive_not_bracket (ty : TokenType) :
  is_primitive ty = true -> ty <> TOKEN_LOOP_END /\ ty <> TOKEN_LOOP_START.
Proof. destruct ty; cbv; intros H; split; intros E; discriminate. Qed.

Section Iteration.

Variables (fuel : nat) (tokens : list Token) (index : nat).
Variables (nodes : list ASTNode) (insideLoop : bool).

Lemma parseLevel_eof :
  nth_error tokens index = None ->
  parseLevel (S fuel) tokens index nodes insideLoop =
  if insideLoop then Exit UnmatchedOpen else Ret (nodes, index).
Proof. intros H. simpl. now rewrite H. Qed.

Lemma parseLevel_end (current : Token) :
  nth_error tokens index = Some current -> type current = TOKEN_LOOP_END ->
  parseLevel (S fuel) tokens index nodes insideLoop =
  if insideLoop then Ret (nodes, S index) else Exit (UnmatchedClose (pos current)).
Proof. intros H Hty. simpl. rewrite H, Hty. simpl. now destruct insideLoop. Qed.

Lemma parseLevel_start (current : Token) :
  nth_error tokens index = Some current -> type current = TOKEN_LOOP_START ->
  parseLevel (S fuel) tokens index nodes insideLoop =
  bind (parseLevel fuel tokens (S index) [] true)
       (fun '(kids, index') =>
          parseLevel fuel tokens index'
            (nodes ++ [mkASTNode TOKEN_LOOP_START 0 (Some kids)
                                 (Z.of_nat (List.length kids))])
            insideLoop).
Proof. intros H Hty. simpl. rewrite H, Hty. reflexivity. Qed.

Lemma parseLevel_primitive (current : Token) :
  nth_error tokens index = Some current -> is_primitive (type current) = true ->
  parseLevel (S fuel) tokens index nodes insideLoop =
  let '(repeat, index') := merge_loop (skipn index tokens) (type current) 0 index in
  parseLevel fuel tokens index'
    (nodes ++ [mkASTNode (type current) repeat None 0]) insideLoop.
Proof.
  intros H Hty. simpl. rewrite H, Hty.
  destruct (primitive_not_bracket _ Hty) as [He Hs].
  destruct (TokenType_eqb_spec (type current) TOKEN_LOOP_END); [contradiction|].
  destruct (TokenType_eqb_spec (type current) TOKEN_LOOP_START); [contradiction|].
  reflexivity.
Qed.

End Iteration.

(** The cells from the cursor on. *)
Lemma skipn_cons_nth {A : Type} (l : list A) (i : nat) (x : A) :
  nth_error l i = Some x -> skipn i l = x :: skipn (S i) l.
Proof.
  revert l; induction i as [|i IH]; intros [|y l] H; try discriminate.
  - now inversion H.
  - simpl in H. apply IH in H. exact H.
Qed.

Lemma skipn_nil_nth {A : Type} (l : list A) (i : nat) :
  nth_error l i = None -> skipn i l = [].
Proof. intros H. apply skipn_all2. now apply nth_error_None. Qed.

Lemma skipn_past {A : Type} (l a b : list A) (i : nat) :
  skipn i l = a ++ b -> skipn (i + List.length a) l = b.
Proof.
  intros H. rewrite Nat.add_comm, <- skipn_skipn, H.
  now rewrite skipn_app, skipn_all, Nat.sub_diag.
Qed.

(** The merge loop takes the longest run of [ty] at the cursor. *)
Lemma merge_loop_spec (rest : list Token) (ty : TokenType) :
  forall repeat index,
  exists run rest',
    rest = run ++ rest' /\
    Forall (fun t => type t = ty) run /\
    (forall t r, rest' = t :: r -> type t <> ty) /\
    merge_loop rest ty repeat index =
    (repeat + Z.of_nat (List.length run), (index + List.length run)%nat).
Proof.
  induction rest as [|t rest IH]; intros repeat index.
  - exists [], []. simpl. rewrite Z.add_0_r, Nat.add_0_r.
    repeat split; [constructor | discriminate].
  - simpl. destruct (TokenType_eqb_spec (type t) ty) as [E|N].
    + destruct (IH (repeat + 1) (S index)) as (run & rest' & -> & Hall & Hnext & ->).
      exists (t :: run), rest'. repeat split; auto.
      f_equal; cbn [List.length]; lia.
    + exists [], (t :: rest). simpl. rewrite Z.add_0_r, Nat.add_0_r.
      repeat split; [constructor|]. intros t' r [= <- _]. exact N.
Qed.

(* ================================================================= *)
(** ** What a returning call has read and built *)

Lemma level_end_next tokens index consumed index' insideLoop t r :
  level_end tokens index consumed index' insideLoop ->
  consumed = t :: r -> exists r', skipn index tokens = t :: r'.
Proof.
  unfold level_end. intros H ->. destruct insideLoop.
  - destruct H as (c & _ & -> & _). eexists. reflexivity.
  - destruct H as (-> & _). eexists. reflexivity.
Qed.

Lemma parseLevel_sound (tokens : list Token) :
  forall fuel index acc insideLoop nodes index',
    parseLevel fuel tokens index acc insideLoop = Ret (nodes, index') ->
    exists consumed new,
      Items consumed new /\ nodes = acc ++ new /\
      level_end tokens index consumed index' insideLoop.
Proof.
  induction fuel as [|fuel IH]; intros index acc b nodes index' H; [discriminate|].
  destruct (nth_error tokens index) as [current|] eqn:Hn.
  2:{ rewrite parseLevel_eof in H by assumption.
      destruct b; [discriminate|]. injection H as <- <-.
      exists [], []. split; [constructor|]. split; [now rewrite app_nil_r|].
      pose proof (skipn_nil_nth _ _ Hn). cbn. rewrite Nat.add_0_r. auto. }
  pose proof (skipn_cons_nth _ _ _ Hn) as Hsk.
  destruct (type_cases (type current)) as [He | [Hs | Hp]].
  - (* a close marker *)
    rewrite (parseLevel_end _ _ _ _ _ _ Hn He) in H.
    destruct b; [|discriminate]. injection H as <- <-.
    exists [], []. split; [constructor|]. split; [now rewrite app_nil_r|].
    exists current. cbn. rewrite Nat.add_0_r. auto.
  - (* an open marker: the body, then the rest of this level *)
    rewrite (parseLevel_start _ _ _ _ _ _ Hn Hs) in H.
    destruct (parseLevel fuel tokens (S index) [] true) as [[kids i1]| |] eqn:Hin;
      try discriminate.
    cbn [bind] in H.
    apply IH in Hin as (body & kids' & Hbody & -> & c & Hc & Hskb & ->).
    apply IH in H as (rest & new & Hrest & -> & Hend).
    exists (current :: body ++ c :: rest), (mkASTNode TOKEN_LOOP_START 0 (Some kids')
                                              (Z.of_nat (List.length kids')) :: new).
    split; [now constructor|]. split; [now rewrite <- app_assoc|].
    unfold level_end in *. cbn [app] in *. rewrite Hsk, Hskb.
    cbn [List.length]; rewrite length_app; cbn [List.length].
    destruct b.
    + destruct Hend as (c2 & Hc2 & -> & ->). exists c2.
      split; [exact Hc2|]. split; [|lia].
      cbn [app]. now rewrite <- app_assoc.
    + destruct Hend as (-> & -> & ->). repeat split. lia.
  - (* a run of one primitive kind *)
    rewrite (parseLevel_primitive _ _ _ _ _ _ Hn Hp) in H.
    destruct (merge_loop_spec (skipn index tokens) (type current) 0 index)
      as (run & rest' & Hrun & Hall & Hnext & Hm).
    rewrite Hm in H. cbn [Z.add] in H.
    assert (Hne : run <> []).
    { intros ->. cbn in Hrun. rewrite Hsk in Hrun.
      symmetry in Hrun. now apply Hnext in Hrun. }
    pose proof (skipn_past _ _ _ _ Hrun) as Hpast.
    apply IH in H as (rest & new & Hrest & -> & Hend).
    exists (run ++ rest), (mkASTNode (type current) (Z.of_nat (List.length run)) None 0 :: new).
    split.
    { constructor; auto. intros t r Ht.
      destruct (level_end_next _ _ _ _ _ _ _ Hend Ht) as [r' Hr'].
      rewrite Hpast in Hr'. eapply Hnext; eauto. }
    split; [now rewrite <- app_assoc|].
    unfold level_end in *. rewrite Hrun, length_app.
    destruct b.
    + destruct Hend as (c2 & Hc2 & Hs2 & ->). exists c2.
      split; [exact Hc2|]. rewrite Hpast in Hs2. rewrite Hs2.
      split; [now rewrite <- app_assoc | lia].
    + destruct Hend as (Hs2 & -> & ->). rewrite Hpast in Hs2. rewrite Hs2.
      repeat split. lia.
Qed.

Lemma parseLevel_index (tokens : list Token) fuel index acc insideLoop nodes index' :
  parseLevel fuel tokens index acc insideLoop = Ret (nodes, index') ->
  (index <= index')%nat /\ (insideLoop = true -> (index < index')%nat).
Proof.
  intros H. apply parseLevel_sound in H as (consumed & new & _ & _ & Hend).
  unfold level_end in Hend. destruct insideLoop.
  - destruct Hend as (c & _ & _ & ->). split; [lia | intros _; lia].
  - destruct Hend as (_ & _ & ->). split; [lia | discriminate].
Qed.

(** Every iteration but the last of a level moves the cursor, so a bound
    above the number of cells left is never reached. *)
Lemma parseLevel_fuel (tokens : list Token) :
  forall fuel index acc insideLoop,
    (List.length tokens - index < fuel)%nat ->
    parseLevel fuel tokens index acc insideLoop <> OutOfFuel.
Proof.
  induction fuel as [|fuel IH]; intros index acc b Hf; [lia|].
  destruct (nth_error tokens index) as [current|] eqn:Hn.
  2:{ rewrite parseLevel_eof by assumption. now destruct b. }
  assert (Hlt : (index < List.length tokens)%nat)
    by (apply nth_error_Some; congruence).
  destruct (type_cases (type current)) as [He | [Hs | Hp]].
  - rewrite (parseLevel_end _ _ _ _ _ _ Hn He). now destruct b.
  - rewrite (parseLevel_start _ _ _ _ _ _ Hn Hs).
    destruct (parseLevel fuel tokens (S index) [] true) as [[kids i1]| |] eqn:Hin;
      cbn [bind]; [| discriminate |].
    + apply parseLevel_index in Hin as [Hle _]. apply IH. lia.
    + exfalso. revert Hin. apply IH. lia.
  - rewrite (parseLevel_primitive _ _ _ _ _ _ Hn Hp).
    destruct (merge_loop_spec (skipn index tokens) (type current) 0 index)
      as (run & rest' & Hrun & Hall & Hnext & Hm).
    rewrite Hm. apply IH.
    destruct run as [|t run]; [|cbn [List.length]; lia].
    exfalso. cbn in Hrun. rewrite (skipn_cons_nth _ _ _ Hn) in Hrun.
    symmetry in Hrun. now apply Hnext in Hrun.
Qed.

(** A run of primitive tokens leaves the depth counter as it is. *)
Lemma bracket_check_run (ty : TokenType) (run rest : list Token) (depth : nat) :
  is_primitive ty = true -> Forall (fun t => type t = ty) run ->
  bracket_check (run ++ rest) depth = bracket_check rest depth.
Proof.
  intros Hp Hall. induction Hall as [|t run Ht _ IH]; [reflexivity|].
  cbn. rewrite Ht, IH. destruct ty; try reflexivity; discriminate.
Qed.

(** The parser and the depth counter agree, whatever number [depth] of
    loops is open around the level. *)
Lemma parseLevel_check (tokens : list Token) :
  forall fuel index acc (insideLoop : bool) (depth : nat),
    let open := if insideLoop then S depth else O in
    match parseLevel fuel tokens index acc insideLoop with
    | Ret (_, index') =>
        bracket_check (skipn index tokens) open =
        if insideLoop then bracket_check (skipn index' tokens) depth else None
    | Exit d => bracket_check (skipn index tokens) open = Some d
    | OutOfFuel => True
    end.
Proof.
  induction fuel as [|fuel IH]; intros index acc b depth open; [exact I|].
  destruct (nth_error tokens index) as [current|] eqn:Hn.
  2:{ rewrite parseLevel_eof, (skipn_nil_nth _ _ Hn) by assumption.
      subst open. now destruct b. }
  pose proof (skipn_cons_nth _ _ _ Hn) as Hsk.
  destruct (type_cases (type current)) as [He | [Hs | Hp]].
  - rewrite (parseLevel_end _ _ _ _ _ _ Hn He), Hsk. subst open.
    destruct b; cbn; now rewrite He.
  - rewrite (parseLevel_start _ _ _ _ _ _ Hn Hs).
    pose proof (IH (S index) [] true open) as Hin. cbn zeta in Hin.
    assert (Hstep : bracket_check (skipn index tokens) open =
                    bracket_check (skipn (S index) tokens) (S open))
      by (rewrite Hsk; cbn; now rewrite Hs).
    destruct (parseLevel fuel tokens (S index) [] true) as [[kids i1]| |];
      cbn [bind]; [| now rewrite Hstep | exact I].
    match goal with
    | |- context [parseLevel fuel tokens i1 ?a b] =>
        pose proof (IH i1 a b depth) as Hout;
        destruct (parseLevel fuel tokens i1 a b) as [[n i2]|d|]
    end; [| | exact I]; cbn zeta in Hout; fold open in Hout;
      now rewrite Hstep, Hin.
  - rewrite (parseLevel_primitive _ _ _ _ _ _ Hn Hp).
    destruct (merge_loop_spec (skipn index tokens) (type current) 0 index)
      as (run & rest' & Hrun & Hall & Hnext & Hm).
    rewrite Hm.
    assert (Hstep : bracket_check (skipn index tokens) open =
                    bracket_check (skipn (index + List.length run) tokens) open).
    { rewrite (skipn_past _ _ _ _ Hrun), Hrun. now apply bracket_check_run with (ty := type current). }
    match goal with
    | |- context [parseLevel fuel tokens ?i ?a b] =>
        pose proof (IH i a b depth) as Hout;
        destruct (parseLevel fuel tokens i a b) as [[n i2]|d|]
    end; [| | exact I]; cbn zeta in Hout; fold open in Hout;
      now rewrite Hstep.
Qed.

(** [parseTokens] decided by the depth counter: it returns a tree exactly
    when the markers match, and else leaves with the first defect. *)
Lemma parseTokens_spec (tokens : list Token) :
  match bracket_check tokens 0 with
  | None => exists nodes, parseTokens tokens = Ret nodes /\ Items tokens nodes
  | Some d => parseTokens tokens = Exit d
  end.
Proof.
  unfold parseTokens.
  pose proof (parseLevel_check tokens (S (List.length tokens)) 0 [] false 0) as Hc.
  pose proof (parseLevel_fuel tokens (S (List.length tokens)) 0 [] false) as Hf.
  destruct (parseLevel (S (List.length tokens)) tokens 0 [] false)
    as [[nodes index']|d|] eqn:Hp; cbn in Hc |- *.
  - rewrite Hc. exists nodes. split; [reflexivity|].
    apply parseLevel_sound in Hp as (consumed & new & Hit & -> & Hend & _).
    cbn in Hend. now subst consumed.
  - now rewrite Hc.
  - exfalso. apply Hf; [lia | reflexivity].
Qed.

Lemma parseTokens_Exit (tokens : list Token) (d : Diagnostic) :
  parseTokens tokens = Exit d <-> bracket_check tokens 0 = Some d.
Proof.
  pose proof (parseTokens_spec tokens) as H.
  destruct (bracket_check tokens 0) as [d'|].
  - rewrite H. split; congruence.
  - destruct H as (nodes & -> & _). split; discriminate.
Qed.

Lemma parseTokens_total (tokens : list Token) : parseTokens tokens <> OutOfFuel.
Proof.
  pose proof (parseTokens_spec tokens) as H.
  destruct (bracket_check tokens 0); [now rewrite H|].
  destruct H as (nodes & -> & _). discriminate.
Qed.

Lemma parseTokens_Items (tokens : list Token) (nodes : list ASTNode) :
  parseTokens tokens = Ret nodes -> Items tokens nodes.
Proof.
  intros H. pose proof (parseTokens_spec tokens) as Hs.
  destruct (bracket_check tokens 0); [congruence|].
  destruct Hs as (nodes' & H' & Hit). congruence.
Qed.

(* ================================================================= *)
(** ** Properties of the trees of a level *)

(** The first node of a level has the kind of the first token. *)
Lemma Items_head tokens node nodes :
  Items tokens (node :: nodes) ->
  exists t rest, tokens = t :: rest /\ type t = node_type node /\
                 type t <> TOKEN_LOOP_END.
Proof.
  intros H. inversion H; subst.
  - eexists _, _. split; [reflexivity|]. cbn. split; [assumption|congruence].
  - destruct run as [|t run]; [contradiction|].
    match goal with Hall : Forall _ (_ :: _) |- _ => inversion Hall; subst end.
    eexists _, _. split; [reflexivity|]. cbn. split; [reflexivity|].
    match goal with Hp : is_primitive _ = true |- _ =>
      apply primitive_not_bracket in Hp as [Hp _]; exact Hp end.
Qed.

Lemma Items_nil_inv nodes : Items [] nodes -> nodes = [].
Proof.
  intros H. inversion H as [| |ty run rest nodes' Hp Hne Hall Hnext Hr E]; subst;
    [reflexivity|].
  destruct run; [congruence | discriminate].
Qed.

Lemma Items_flatten tokens nodes : Items tokens nodes -> flatten nodes = map type tokens.
Proof.
  unfold flatten. induction 1 as [|o c body rest kids nodes Ho Hc _ IHb _ IHr
                                  |ty run rest nodes Hp Hne Hall Hnext _ IHr].
  - reflexivity.
  - cbn [flat_map flatten_node]. rewrite IHb, IHr.
    cbn. rewrite map_app, <- app_assoc. cbn. now rewrite Ho, Hc.
  - cbn [flat_map flatten_node]. rewrite IHr, Nat2Z.id, map_app. f_equal.
    clear -Hall. induction Hall as [|t run Ht _ IH]; [reflexivity|].
    cbn. now rewrite Ht, IH.
Qed.

Lemma no_adjacent_same_kind_cons a b nodes :
  no_adjacent_same_kind (a :: b :: nodes) =
  negb (same_kind a b) && no_adjacent_same_kind (b :: nodes).
Proof. reflexivity. Qed.

Lemma Items_merged tokens nodes : Items tokens nodes -> merged nodes = true.
Proof.
  unfold merged. induction 1 as [|o c body rest kids nodes Ho Hc _ IHb Hr IHr
                                 |ty run rest nodes Hp Hne Hall Hnext Hr IHr].
  - reflexivity.
  - apply andb_true_iff in IHr as [IHa IHf].
    cbn [forallb merged_node]. rewrite IHb, IHf.
    destruct nodes; [reflexivity|]. now rewrite no_adjacent_same_kind_cons, IHa.
  - apply andb_true_iff in IHr as [IHa IHf].
    cbn [forallb merged_node]. rewrite IHf, Hp.
    assert (Hcnt : (1 <=? Z.of_nat (List.length run)) = true).
    { apply Z.leb_le. destruct run; [congruence | cbn [List.length]; lia]. }
    rewrite Hcnt. cbn [andb]. rewrite andb_true_r.
    destruct nodes as [|b nodes]; [reflexivity|].
    rewrite no_adjacent_same_kind_cons, IHa, andb_true_r.
    destruct (Items_head _ _ _ Hr) as (t & r & -> & Ht & _).
    unfold same_kind. cbn [node_type]. rewrite Hp, <- Ht. cbn [andb].
    destruct (TokenType_eqb_spec ty (type t)) as [E|N]; [|reflexivity].
    exfalso. now apply (Hnext t r eq_refl).
Qed.

Lemma Items_shaped tokens nodes : Items tokens nodes -> shaped nodes = true.
Proof.
  unfold shaped. induction 1 as [|o c body rest kids nodes Ho Hc _ IHb Hr IHr
                                 |ty run rest nodes Hp Hne Hall Hnext Hr IHr].
  - reflexivity.
  - cbn [forallb shaped_node]. rewrite IHb, IHr.
    unfold node_shape. cbn. now rewrite Z.eqb_refl.
  - cbn [forallb shaped_node]. rewrite IHr.
    unfold node_shape. cbn. destruct ty; try reflexivity; discriminate.
Qed.

(** A level that starts with a close marker is empty. *)
Lemma Items_not_end tokens nodes t rest :
  Items tokens nodes -> tokens = t :: rest -> type t <> TOKEN_LOOP_END.
Proof.
  intros H ->. destruct nodes as [|node nodes].
  - inversion H.
  - destruct (Items_head _ _ _ H) as (t' & r' & [= <- <-] & _ & Hne). exact Hne.
Qed.

Lemma Items_empty_body body kids c rest :
  Items body kids -> type c = TOKEN_LOOP_END ->
  match body ++ c :: rest with
  | c' :: _ => TokenType_eqb (type c') TOKEN_LOOP_END
  | [] => false
  end = match kids with [] => true | _ => false end.
Proof.
  intros H Hc. destruct body as [|t body].
  - apply Items_nil_inv in H as ->. cbn. now rewrite Hc.
  - pose proof (Items_not_end _ _ _ _ H eq_refl) as Hne.
    destruct kids; [inversion H|]. cbn.
    now destruct (TokenType_eqb_spec (type t) TOKEN_LOOP_END).
Qed.

Lemma open_profile_run ty run rest depth :
  is_primitive ty = true -> Forall (fun t => type t = ty) run ->
  open_profile depth (run ++ rest) = open_profile depth rest.
Proof.
  intros Hp Hall. induction Hall as [|t run Ht _ IH]; [reflexivity|].
  cbn. rewrite Ht, IH. destruct ty; try reflexivity; discriminate.
Qed.

Lemma tokens_depth_run ty run rest depth :
  is_primitive ty = true -> Forall (fun t => type t = ty) run ->
  tokens_depth depth (run ++ rest) = tokens_depth depth rest.
Proof.
  intros Hp Hall. induction Hall as [|t run Ht _ IH]; [reflexivity|].
  cbn. rewrite Ht, IH. destruct ty; try reflexivity; discriminate.
Qed.

(** Loop by loop, the tree has the depths and the empty bodies of the
    markers it was read from. *)
Lemma Items_profile tokens nodes :
  Items tokens nodes ->
  forall depth suffix,
    open_profile depth (tokens ++ suffix) =
    loop_profile depth nodes ++ open_profile depth suffix.
Proof.
  unfold loop_profile.
  induction 1 as [|o c body rest kids nodes Ho Hc Hb IHb Hr IHr
                  |ty run rest nodes Hp Hne Hall Hnext Hr IHr]; intros depth suffix.
  - reflexivity.
  - cbn [app open_profile flat_map loop_profile_node]. rewrite Ho.
    rewrite <- app_assoc. cbn [app].
    rewrite (Items_empty_body _ _ _ _ Hb Hc), IHb.
    cbn [open_profile]. rewrite Hc. cbn [Nat.pred]. rewrite IHr.
    cbn [app]. now rewrite <- app_assoc.
  - cbn [flat_map loop_profile_node]. rewrite <- app_assoc.
    rewrite (open_profile_run _ _ _ _ Hp Hall), IHr.
    destruct ty; try reflexivity; discriminate.
Qed.

Lemma Items_depth tokens nodes :
  Items tokens nodes ->
  forall depth suffix,
    tokens_depth depth (tokens ++ suffix) =
    Nat.max (nodes_depth depth nodes) (tokens_depth depth suffix).
Proof.
  unfold nodes_depth.
  induction 1 as [|o c body rest kids nodes Ho Hc Hb IHb Hr IHr
                  |ty run rest nodes Hp Hne Hall Hnext Hr IHr]; intros depth suffix.
  - reflexivity.
  - cbn [app tokens_depth fold_right node_depth]. rewrite Ho.
    rewrite <- app_assoc. cbn [app]. rewrite IHb.
    cbn [tokens_depth]. rewrite Hc. cbn [Nat.pred]. rewrite IHr. lia.
  - cbn [fold_right node_depth]. rewrite <- app_assoc.
    rewrite (tokens_depth_run _ _ _ _ Hp Hall), IHr.
    destruct ty; try reflexivity; discriminate.
Qed.

(* ================================================================= *)
(** ** The generator *)

Lemma append_assoc (a b c : string) : (a +++ b) +++ c = a +++ (b +++ c).
Proof. induction a as [|x a IH]; [reflexivity|]. cbn. now rewrite IH. Qed.

Lemma append_nil_r (a : string) : a +++ EmptyString = a.
Proof. induction a as [|x a IH]; [reflexivity|]. cbn. now rewrite IH. Qed.

(** The whole array: the text of each node, one after the other. *)
Lemma for_each_node_app (body : ASTNode -> string) (a b : list ASTNode) :
  for_each_node body (a ++ b) (List.length (a ++ b)) =
  for_each_node body a (List.length a) +++ for_each_node body b (List.length b).
Proof.
  induction a as [|x a IH]; [reflexivity|].
  cbn [app List.length for_each_node]. now rewrite IH, append_assoc.
Qed.

Lemma generate_code_cons (node : ASTNode) (nodes : list ASTNode) (indent_level : nat) :
  generate_code (node :: nodes) (Z.of_nat (List.length (node :: nodes))) indent_level =
  generate_node node indent_level
  +++ generate_code nodes (Z.of_nat (List.length nodes)) indent_level.
Proof. unfold generate_code. rewrite !Nat2Z.id. reflexivity. Qed.

Lemma generate_code_app (a b : list ASTNode) (indent_level : nat) :
  generate_code (a ++ b) (Z.of_nat (List.length (a ++ b))) indent_level =
  generate_code a (Z.of_nat (List.length a)) indent_level
  +++ generate_code b (Z.of_nat (List.length b)) indent_level.
Proof. unfold generate_code. rewrite !Nat2Z.id. apply for_each_node_app. Qed.

(** A loop node: the [while] around the code of its array, one level in. *)
Lemma generate_node_loop (cnt : Z) (kids : list ASTNode) (numCh : Z) (indent_level : nat) :
  generate_node (mkASTNode TOKEN_LOOP_START cnt (Some kids) numCh) indent_level =
  print_indent indent_level +++ "while (*ptr) {" +++ LF
  +++ generate_code kids numCh (S indent_level)
  +++ print_indent indent_level +++ "}" +++ LF.
Proof. reflexivity. Qed.

Lemma generate_node_io (node : ASTNode) (indent_level : nat) :
  node_type node = TOKEN_OUTPUT \/ node_type node = TOKEN_INPUT ->
  generate_node node indent_level =
  io_statement (node_type node) (count node) indent_level.
Proof.
  destruct node as [ty cnt ch numCh]. cbn [node_type count].
  unfold io_statement, counted_loop, direct_statement.
  intros [-> | ->]; cbn [generate_node io_call]; destruct (cnt =? 1);
    now rewrite ?append_assoc.
Qed.

(** The literal [printf] writes for a number denotes that number. *)
Lemma printf_d_value (n : Z) : literal_value (printf_d n) = Some n.
Proof.
  unfold literal_value, printf_d. rewrite NilZero.isi.
  - cbn. now rewrite DecimalZ.of_to.
  - destruct n; cbn; try discriminate.
    intros [= H]. now apply Unsigned.to_uint_nonnil in H.
  - destruct n; cbn; try discriminate.
    intros [= H]. now apply Unsigned.to_uint_nonnil in H.
Qed.

(** A level that is one run is one node, with the length of the run. *)
Lemma Items_single_run (ty : TokenType) (run : list Token) (nodes : list ASTNode) :
  is_primitive ty = true -> run <> [] -> Forall (fun t => type t = ty) run ->
  Items run nodes ->
  nodes = [mkASTNode ty (Z.of_nat (List.length run)) None 0].
Proof.
  intros Hp Hne Hall H.
  inversion H as [|o c body rest kids nodes' Ho Hc Hb Hr E
                  |ty' run' rest nodes' Hp' Hne' Hall' Hnext Hr E]; subst.
  - congruence.
  - inversion Hall; subst. apply primitive_not_bracket in Hp. tauto.
  - apply Forall_app in Hall as [Hrun Hrest].
    assert (ty' = ty) as ->.
    { destruct run'; [congruence|]. inversion Hall'; inversion Hrun; congruence. }
    destruct rest as [|t rest].
    + apply Items_nil_inv in Hr as ->. now rewrite app_nil_r.
    + inversion Hrest; subst. exfalso. now apply (Hnext t rest eq_refl).
Qed.

Lemma parse_single_run (ty : TokenType) (run : list Token) :
  is_primitive ty = true -> run <> [] -> Forall (fun t => type t = ty) run ->
  parseTokens run = Ret [mkASTNode ty (Z.of_nat (List.length run)) None 0].
Proof.
  intros Hp Hne Hall. pose proof (parseTokens_spec run) as H.
  replace (bracket_check run 0) with (@None Diagnostic) in H.
  - destruct H as (nodes & -> & Hit). f_equal.
    now apply Items_single_run.
  - rewrite <- (app_nil_r run). now rewrite (bracket_check_run ty).
Qed.

(* ================================================================= *)
(** ** The driver *)

Lemma main_total (argv : list string) (env : Env) : exists p, main argv env = Some p.
Proof.
  unfold main. destruct (read_source argv env) as [src|msg]; [|eauto].
  cbn zeta. pose proof (parseTokens_total (lex src)) as H.
  destruct (parseTokens (lex src)); [eauto | eauto | contradiction].
Qed.

(** A source whose markers do not match: the diagnostic on the error
    stream, the failure status, and no byte on the standard output. *)
Lemma main_parse_error (argv : list string) (env : Env) (src : string) (d : Diagnostic) :
  read_source argv env = Opened src ->
  bracket_check (lex src) 0 = Some d ->
  main argv env = Some (mkProcess EmptyString (diagnostic d) EXIT_FAILURE).
Proof.
  intros Hr Hc. unfold main. rewrite Hr. cbn zeta.
  pose proof (parseTokens_spec (lex src)) as H. rewrite Hc in H. now rewrite H.
Qed.

Lemma main_success (argv : list string) (env : Env) (src : string) :
  read_source argv env = Opened src ->
  bracket_check (lex src) 0 = None ->
  exists ast,
    parseTokens (lex src) = Ret ast /\
    main argv env =
    Some (mkProcess (preamble +++ generate_code ast (Z.of_nat (List.length ast)) 1
                              +++ epilogue)
                    EmptyString 0).
Proof.
  intros Hr Hc. unfold main. rewrite Hr. cbn zeta.
  pose proof (parseTokens_spec (lex src)) as H. rewrite Hc in H.
  destruct H as (ast & H & _). exists ast. now rewrite H.
Qed.

(** The depth counter over a matched prefix. *)
Lemma bracket_check_prefix (pre : list Token) :
  forall depth, bracket_check pre depth = None ->
  forall extra rest,
    bracket_check (pre ++ rest) (depth + extra) = bracket_check rest extra.
Proof.
  induction pre as [|t pre IH]; intros depth H extra rest.
  - destruct depth; [reflexivity | discriminate].
  - cbn in H |- *. destruct (type t); try (now apply IH).
    + now apply (IH (S depth)).
    + destruct depth as [|depth]; [discriminate|]. now apply IH.
Qed.

(* ================================================================= *)
(** ** Unmatched markers *)

(** C1: whenever the parser, outside any loop, is at a close marker, the
    call leaves with the unmatched-close diagnostic carrying the offset of
    that marker; so does the whole parse when the tokens before the marker
    match; and the source "]" fails with the diagnostic at offset 0. *)
Theorem unmatched_close_is_fatal :
  (forall (tokens : list Token) (index : nat) (current : Token),
      nth_error tokens index = Some current ->
      type current = TOKEN_LOOP_END ->
      (forall fuel nodes,
          parseLevel (S fuel) tokens index nodes false =
          Exit (UnmatchedClose (pos current))) /\
      (bracket_check (firstn index tokens) 0 = None ->
       parseTokens tokens = Exit (UnmatchedClose (pos current)))) /\
  parseTokens (lex "]") = Exit (UnmatchedClose 0) /\
  run_stdin "]" =
  Some (mkProcess EmptyString ("Error: Unmatched ']' at position 0" +++ LF) EXIT_FAILURE).
Proof.
  split; [|split; reflexivity].
  intros tokens index current Hn He. split.
  - intros fuel nodes. now rewrite (parseLevel_end _ _ _ _ _ _ Hn He).
  - intros Hpre.
    assert (Hc : bracket_check tokens 0 = Some (UnmatchedClose (pos current))).
    { rewrite <- (firstn_skipn index tokens).
      rewrite (bracket_check_prefix _ 0 Hpre 0 (skipn index tokens)
               : bracket_check (_ ++ _) 0 = _).
      rewrite (skipn_cons_nth _ _ _ Hn). cbn. now rewrite He. }
    pose proof (parseTokens_spec tokens) as H. now rewrite Hc in H.
Qed.

Lemma unmatched_close_is_fatal_witness :
  parseTokens [mkToken TOKEN_PLUS 0; mkToken TOKEN_LOOP_END 1; mkToken TOKEN_LOOP_START 2] =
  Exit (UnmatchedClose 1).
Proof.
  exact (proj2 (proj1 unmatched_close_is_fatal
           [mkToken TOKEN_PLUS 0; mkToken TOKEN_LOOP_END 1; mkToken TOKEN_LOOP_START 2]
           1%nat (mkToken TOKEN_LOOP_END 1) eq_refl eq_refl) eq_refl).
Defined.

(** C4: whenever the token array ends while the parser is inside a loop,
    the call leaves with the unmatched-open diagnostic; so does the whole
    parse of a sequence that ends with a loop still open, and the process
    then writes the diagnostic alone and fails; such is the source "[+". *)
Theorem unmatched_open_is_fatal :
  (forall (tokens : list Token) (fuel index : nat) (nodes : list ASTNode),
      (List.length tokens <= index)%nat ->
      parseLevel (S fuel) tokens index nodes true = Exit UnmatchedOpen) /\
  (forall (tokens : list Token),
      bracket_check tokens 0 = Some UnmatchedOpen ->
      parseTokens tokens = Exit UnmatchedOpen /\
      forall argv env src,
        read_source argv env = Opened src -> lex src = tokens ->
        main argv env =
        Some (mkProcess EmptyString ("Error: Unmatched '[' detected" +++ LF)
                        EXIT_FAILURE)) /\
  parseTokens (lex "[+") = Exit UnmatchedOpen /\
  run_stdin "[+" =
  Some (mkProcess EmptyString ("Error: Unmatched '[' detected" +++ LF) EXIT_FAILURE).
Proof.
  split; [|split; [|split; reflexivity]].
  - intros tokens fuel index nodes Hle. apply parseLevel_eof. now apply nth_error_None.
  - intros tokens Hc. split.
    + pose proof (parseTokens_spec tokens) as Hs. now rewrite Hc in Hs.
    + intros argv env src Hr <-. now rewrite (main_parse_error _ _ _ _ Hr Hc).
Qed.

Lemma unmatched_open_is_fatal_witness :
  parseTokens [mkToken TOKEN_LOOP_START 0; mkToken TOKEN_LOOP_START 1;
               mkToken TOKEN_LOOP_END 2; mkToken TOKEN_INPUT 3] = Exit UnmatchedOpen.
Proof.
  exact (proj1 (proj1 (proj2 unmatched_open_is_fatal)
           [mkToken TOKEN_LOOP_START 0; mkToken TOKEN_LOOP_START 1;
            mkToken TOKEN_LOOP_END 2; mkToken TOKEN_INPUT 3] eq_refl)).
Defined.

(** C7: when the parser leaves with a diagnostic, which it does exactly
    for a source whose loop markers do not match, the process has written
    that diagnostic to the error stream, ends with a status that is not 0,
    and has written nothing to the standard output. *)
Theorem parse_error_leaves_stdout_empty :
  forall (argv : list string) (env : Env) (src : string) (d : Diagnostic),
    read_source argv env = Opened src ->
    parseTokens (lex src) = Exit d ->
    bracket_check (lex src) 0 = Some d /\
    exists p,
      main argv env = Some p /\
      stdout p = EmptyString /\
      stderr p = diagnostic d /\ stderr p <> EmptyString /\
      status p = EXIT_FAILURE /\ status p <> 0.
Proof.
  intros argv env src d Hr Hp. apply parseTokens_Exit in Hp. split; [exact Hp|].
  eexists. split; [exact (main_parse_error _ _ _ _ Hr Hp)|].
  cbn. repeat split; try discriminate. now destruct d.
Qed.

Lemma parse_error_leaves_stdout_empty_witness :
  exists p,
    main ["brainfuck2c"%string; "prog.bf"%string]
         (mkEnv (fun _ => Opened "+[>]]") EmptyString) = Some p /\
    stdout p = EmptyString /\
    stderr p = diagnostic (UnmatchedClose 4) /\ stderr p <> EmptyString /\
    status p = EXIT_FAILURE /\ status p <> 0.
Proof.
  exact (proj2 (parse_error_leaves_stdout_empty
                  ["brainfuck2c"%string; "prog.bf"%string]
                  (mkEnv (fun _ => Opened "+[>]]") EmptyString)
                  "+[>]]" (UnmatchedClose 4) eq_refl eq_refl)).
Defined.

(* ================================================================= *)
(** ** The parsed tree *)

Lemma merged_Level (root level : list ASTNode) :
  merged root = true -> Level root level -> merged level = true.
Proof.
  intros Hroot H. induction H as [|level kids parent _ IH Hin Hch]; [exact Hroot|].
  apply andb_true_iff in IH as [_ Hall].
  rewrite forallb_forall in Hall. specialize (Hall _ Hin).
  destruct parent as [ty cnt ch numCh]. cbn in Hch. subst ch.
  cbn in Hall. now apply andb_true_iff in Hall as [_ Hall].
Qed.

Lemma shaped_Level (root level : list ASTNode) :
  shaped root = true -> Level root level -> shaped level = true.
Proof.
  intros Hroot H. induction H as [|level kids parent _ IH Hin Hch]; [exact Hroot|].
  unfold shaped in IH. rewrite forallb_forall in IH. specialize (IH _ Hin).
  destruct parent as [ty cnt ch numCh]. cbn in Hch. subst ch.
  cbn in IH. now apply andb_true_iff in IH as [_ IH].
Qed.

(** What [no_adjacent_same_kind] says of two neighbours. *)
Lemma no_adjacent_same_kind_spec (level before after : list ASTNode) (a b : ASTNode) :
  no_adjacent_same_kind level = true ->
  level = before ++ a :: b :: after ->
  is_primitive (node_type a) = true -> node_type a <> node_type b.
Proof.
  intros H -> Hp. induction before as [|x before IH].
  - cbn [app] in H. rewrite no_adjacent_same_kind_cons in H.
    apply andb_true_iff in H as [H _]. unfold same_kind in H. rewrite Hp in H.
    cbn in H. now destruct (TokenType_eqb_spec (node_type a) (node_type b)).
  - apply IH. destruct before; cbn [app] in H |- *;
      rewrite no_adjacent_same_kind_cons in H;
      now apply andb_true_iff in H as [_ H].
Qed.

Lemma merged_count (level : list ASTNode) (node : ASTNode) :
  merged level = true -> In node level ->
  is_primitive (node_type node) = true -> 1 <= count node.
Proof.
  intros H Hin Hp. apply andb_true_iff in H as [_ H].
  rewrite forallb_forall in H. specialize (H _ Hin).
  destruct node as [ty cnt ch numCh]. cbn in Hp |- *. cbn in H. rewrite Hp in H.
  apply andb_true_iff in H as [H _]. now apply Z.leb_le.
Qed.

(** C2: in every array of a parsed tree (the root array and the body of
    every loop), a repeated operation is never followed by a node of the
    same kind, and the count of every repeated operation is at least 1;
    read back with each count expanded, the tree gives the token kinds,
    so every run of one kind is one node. *)
Theorem parsed_tree_is_merged :
  forall (tokens : list Token) (nodes : list ASTNode),
    parseTokens tokens = Ret nodes ->
    (forall level, Level nodes level ->
       (forall before a b after,
           level = before ++ a :: b :: after ->
           is_primitive (node_type a) = true -> node_type a <> node_type b) /\
       (forall node, In node level ->
           is_primitive (node_type node) = true -> 1 <= count node)) /\
    merged nodes = true /\
    flatten nodes = map type tokens.
Proof.
  intros tokens nodes H. apply parseTokens_Items in H.
  pose proof (Items_merged _ _ H) as Hm.
  split; [|split; [exact Hm | now apply Items_flatten]].
  intros level Hl. pose proof (merged_Level _ _ Hm Hl) as Hml. split.
  - intros before a b after E. apply andb_true_iff in Hml as [Hml _].
    now apply (no_adjacent_same_kind_spec level before after).
  - intros node. now apply merged_count.
Qed.

Lemma parsed_tree_is_merged_witness :
  merged [mkASTNode TOKEN_PLUS 3 None 0;
          mkASTNode TOKEN_LOOP_START 0
            (Some [mkASTNode TOKEN_MINUS 2 None 0; mkASTNode TOKEN_NEXT 1 None 0]) 2;
          mkASTNode TOKEN_OUTPUT 2 None 0] = true.
Proof.
  exact (proj1 (proj2 (parsed_tree_is_merged (lex "+++[-->]..") _ eq_refl))).
Defined.

(** C10: every node of the tree a call of the parser returns (that of
    [parseTokens], and that of any call of [parseLevel] that starts with an
    empty array) is either a loop node (type TOKEN_LOOP_START, count 0, an
    array of [numChildren] children, which may be empty) or a node of one of
    the six primitive kinds with a NULL [children] and [numChildren] 0; none
    has the type TOKEN_LOOP_END. *)
Theorem parsed_node_shapes :
  forall (tokens : list Token) (nodes level : list ASTNode) (node : ASTNode),
    (parseTokens tokens = Ret nodes \/
     exists fuel index insideLoop index',
       parseLevel fuel tokens index [] insideLoop = Ret (nodes, index')) ->
    Level nodes level -> In node level ->
    ((node_type node = TOKEN_LOOP_START /\ count node = 0 /\
      exists kids, children node = Some kids /\
                   numChildren node = Z.of_nat (List.length kids))
     \/
     (is_primitive (node_type node) = true /\
      children node = None /\ numChildren node = 0))
    /\ node_type node <> TOKEN_LOOP_END.
Proof.
  intros tokens nodes level node H Hl Hin.
  assert (Hsh : shaped nodes = true).
  { destruct H as [H | (fuel & index & b & index' & H)].
    - now apply parseTokens_Items, Items_shaped in H.
    - apply parseLevel_sound in H as (consumed & new & Hit & -> & _).
      now apply Items_shaped in Hit. }
  pose proof (shaped_Level _ _ Hsh Hl) as Hs.
  unfold shaped in Hs. rewrite forallb_forall in Hs. specialize (Hs _ Hin).
  destruct node as [ty cnt ch numCh]. cbn [shaped_node] in Hs.
  apply andb_true_iff in Hs as [Hs _]. unfold node_shape in Hs. cbn in Hs |- *.
  destruct ty; try discriminate;
    try (destruct ch; [discriminate|]; cbn in Hs; apply Z.eqb_eq in Hs;
         split; [right; auto | discriminate]).
  apply andb_true_iff in Hs as [Hc Hk]. apply Z.eqb_eq in Hc.
  destruct ch as [kids|]; [|discriminate]. apply Z.eqb_eq in Hk.
  split; [left; eauto | discriminate].
Qed.

Lemma parsed_node_shapes_witness :
  ((node_type (mkASTNode TOKEN_LOOP_START 0 (Some []) 0) = TOKEN_LOOP_START /\
    count (mkASTNode TOKEN_LOOP_START 0 (Some []) 0) = 0 /\
    exists kids, children (mkASTNode TOKEN_LOOP_START 0 (Some []) 0) = Some kids /\
                 numChildren (mkASTNode TOKEN_LOOP_START 0 (Some []) 0) =
                 Z.of_nat (List.length kids))
   \/
   (is_primitive (node_type (mkASTNode TOKEN_LOOP_START 0 (Some []) 0)) = true /\
    children (mkASTNode TOKEN_LOOP_START 0 (Some []) 0) = None /\
    numChildren (mkASTNode TOKEN_LOOP_START 0 (Some []) 0) = 0))
  /\ node_type (mkASTNode TOKEN_LOOP_START 0 (Some []) 0) <> TOKEN_LOOP_END.
Proof.
  pose (inner := mkASTNode TOKEN_LOOP_START 0 (Some []) 0).
  pose (outer := mkASTNode TOKEN_LOOP_START 0 (Some [inner]) 1).
  pose (plus := mkASTNode TOKEN_PLUS 1 None 0).
  apply (parsed_node_shapes (lex "+[[]]") [plus; outer] [inner] inner
           (or_introl eq_refl)).
  - apply (Level_body _ [plus; outer] [inner] outer);
      [constructor | right; left; reflexivity | reflexivity].
  - left; reflexivity.
Defined.

(* ================================================================= *)
(** ** Matching markers *)

Lemma count_type_cons (ty : TokenType) (t : Token) (tokens : list Token) :
  count_type ty (t :: tokens) =
  if TokenType_eqb (type t) ty then S (count_type ty tokens) else count_type ty tokens.
Proof. unfold count_type. cbn. now destruct (TokenType_eqb (type t) ty). Qed.

Lemma nested_from_cons (depth depth' : nat) (t : Token) (tokens : list Token) :
  (forall l, (count_type TOKEN_LOOP_END (t :: l)
              <= depth + count_type TOKEN_LOOP_START (t :: l))%nat <->
             (count_type TOKEN_LOOP_END l
              <= depth' + count_type TOKEN_LOOP_START l)%nat) ->
  nested_from depth (t :: tokens) <-> nested_from depth' tokens.
Proof.
  intros Hstep. unfold nested_from. split; intros H n.
  - apply Hstep. exact (H (S n)).
  - destruct n as [|n]; [cbn; lia|]. cbn [firstn]. apply Hstep, H.
Qed.

(** The depth counter accepts exactly the sequences whose markers are
    correctly nested and equal in number. *)
Lemma bracket_check_balanced (tokens : list Token) :
  forall depth,
    bracket_check tokens depth = None <->
    nested_from depth tokens /\
    count_type TOKEN_LOOP_END tokens = (depth + count_type TOKEN_LOOP_START tokens)%nat.
Proof.
  induction tokens as [|t tokens IH]; intros depth.
  - cbn. unfold nested_from. split.
    + destruct depth; [|discriminate]. intros _. split; [|reflexivity].
      intros n. rewrite firstn_nil. cbn. lia.
    + intros [_ H]. cbn in H. now replace depth with O by lia.
  - cbn [bracket_check]. destruct (type t) eqn:Ht;
      try (rewrite IH, (nested_from_cons depth depth), !count_type_cons, Ht;
           [reflexivity | intros l; now rewrite !count_type_cons, Ht]).
    + rewrite IH, (nested_from_cons depth (S depth)), !count_type_cons, Ht.
      * cbn. split; intros [H1 H2]; (split; [exact H1 | lia]).
      * intros l. rewrite !count_type_cons, Ht. cbn. lia.
    + destruct depth as [|depth].
      * split; [discriminate|]. intros [H _]. specialize (H 1%nat).
        cbn [firstn] in H. rewrite !count_type_cons, Ht in H. cbn in H. lia.
      * rewrite IH, (nested_from_cons (S depth) depth), !count_type_cons, Ht.
        -- cbn. split; intros [H1 H2]; (split; [exact H1 | lia]).
        -- intros l. rewrite !count_type_cons, Ht. cbn. lia.
Qed.

(** An open marker with the close marker next to it: a loop node with an
    empty array, wherever the parser meets the pair. *)
Lemma parseLevel_empty_loop (fuel : nat) (tokens : list Token) (index : nat)
    (nodes : list ASTNode) (insideLoop : bool) (o c : Token) :
  nth_error tokens index = Some o -> type o = TOKEN_LOOP_START ->
  nth_error tokens (S index) = Some c -> type c = TOKEN_LOOP_END ->
  parseLevel (S (S fuel)) tokens index nodes insideLoop =
  parseLevel (S fuel) tokens (S (S index))
             (nodes ++ [mkASTNode TOKEN_LOOP_START 0 (Some []) 0]) insideLoop.
Proof.
  intros Ho Hto Hc Htc.
  rewrite (parseLevel_start _ _ _ _ _ _ Ho Hto).
  now rewrite (parseLevel_end _ _ _ _ _ _ Hc Htc).
Qed.

(** C8: a token sequence whose open and close markers are equal in number
    and correctly nested is parsed without error; the loops of the tree,
    in order, are the open markers of the source, each at the depth of its
    marker and with an empty body exactly when the close marker follows at
    once; the deepest nesting of the tree is that of the source; and "[]"
    gives one loop node with an empty array. *)
Theorem balanced_source_parses :
  (forall (tokens : list Token),
      count_type TOKEN_LOOP_START tokens = count_type TOKEN_LOOP_END tokens ->
      well_nested tokens ->
      exists nodes,
        parseTokens tokens = Ret nodes /\
        flatten nodes = map type tokens /\
        loop_profile 0 nodes = open_profile 0 tokens /\
        ast_depth nodes = source_depth tokens) /\
  parseTokens (lex "[]") = Ret [mkASTNode TOKEN_LOOP_START 0 (Some []) 0].
Proof.
  split; [|reflexivity].
  intros tokens Hcount Hnest.
  assert (Hc : bracket_check tokens 0 = None)
    by (apply bracket_check_balanced; split; [exact Hnest | now rewrite Hcount]).
  pose proof (parseTokens_spec tokens) as H. rewrite Hc in H.
  destruct H as (nodes & Hp & Hit). exists nodes.
  split; [exact Hp|]. split; [now apply Items_flatten|].
  pose proof (Items_profile _ _ Hit 0%nat []) as Hprof.
  pose proof (Items_depth _ _ Hit 0%nat []) as Hdep.
  rewrite app_nil_r in Hprof, Hdep. cbn in Hprof, Hdep.
  rewrite app_nil_r in Hprof. rewrite Nat.max_0_r in Hdep.
  split; now symmetry.
Qed.

Lemma balanced_source_parses_witness :
  exists nodes,
    parseTokens (lex "[[]+]") = Ret nodes /\
    flatten nodes = map type (lex "[[]+]") /\
    loop_profile 0 nodes = open_profile 0 (lex "[[]+]") /\
    ast_depth nodes = source_depth (lex "[[]+]").
Proof.
  apply (proj1 balanced_source_parses (lex "[[]+]")); [reflexivity|].
  intros n. do 6 (destruct n as [|n]; [cbn; lia|]). cbn. lia.
Defined.

(* ================================================================= *)
(** ** Write and read nodes *)

(** C5: wherever a write or read node stands in an array that is
    generated, its text is the one direct call when the count is 1, and
    else one counted loop around the call whose bound is a literal that
    denotes the count; and that count is the length of the merged run: a
    source that is one run of write (or read) symbols gives one node with
    the length of the run, and its statement alone between the preamble and
    the closing lines. *)
Theorem write_read_statements :
  (forall (before after : list ASTNode) (node : ASTNode) (indent_level : nat),
      node_type node = TOKEN_OUTPUT \/ node_type node = TOKEN_INPUT ->
      let emitted (statement : string) :=
        generate_code (before ++ node :: after)
                      (Z.of_nat (List.length (before ++ node :: after))) indent_level =
        generate_code before (Z.of_nat (List.length before)) indent_level
        +++ statement
        +++ generate_code after (Z.of_nat (List.length after)) indent_level in
      (count node = 1 -> emitted (direct_statement (node_type node) indent_level)) /\
      (count node <> 1 ->
       exists bound,
         literal_value bound = Some (count node) /\
         emitted (counted_loop bound (node_type node) indent_level))) /\
  (forall (ty : TokenType) (run : list Token),
      ty = TOKEN_OUTPUT \/ ty = TOKEN_INPUT ->
      run <> [] -> Forall (fun t => type t = ty) run ->
      parseTokens run = Ret [mkASTNode ty (Z.of_nat (List.length run)) None 0] /\
      forall argv env src,
        read_source argv env = Opened src -> lex src = run ->
        main argv env =
        Some (mkProcess (preamble +++ io_statement ty (Z.of_nat (List.length run)) 1
                                  +++ epilogue)
                        EmptyString 0)).
Proof.
  split.
  - intros before after node indent_level Hty emitted.
    assert (H : emitted (io_statement (node_type node) (count node) indent_level)).
    { unfold emitted. rewrite generate_code_app, generate_code_cons.
      now rewrite (generate_node_io _ _ Hty). }
    unfold io_statement in H. split.
    + intros E. now rewrite E in H.
    + intros N. exists (printf_d (count node)). split; [apply printf_d_value|].
      now destruct (Z.eqb_spec (count node) 1).
  - intros ty run Hty Hne Hall.
    assert (Hp : is_primitive ty = true) by (destruct Hty; subst; reflexivity).
    pose proof (parse_single_run ty run Hp Hne Hall) as Hparse.
    split; [exact Hparse|]. intros argv env src Hr <-.
    unfold main. rewrite Hr. cbn zeta. rewrite Hparse.
    do 3 f_equal. rewrite generate_code_cons.
    rewrite (generate_node_io (mkASTNode _ _ _ _) _ Hty). cbn [node_type count].
    unfold generate_code. cbn. now rewrite append_nil_r.
Qed.

Lemma write_read_statements_witness :
  run_stdin "..." =
  Some (mkProcess (preamble +++ counted_loop "3" TOKEN_OUTPUT 1 +++ epilogue) EmptyString 0)
  /\
  generate_code [mkASTNode TOKEN_PLUS 2 None 0; mkASTNode TOKEN_INPUT 1 None 0] 2 1 =
  generate_code [mkASTNode TOKEN_PLUS 2 None 0] 1 1
  +++ direct_statement TOKEN_INPUT 1 +++ generate_code [] 0 1.
Proof.
  split.
  - refine (proj2 (proj2 write_read_statements TOKEN_OUTPUT (lex "...")
                     (or_introl eq_refl) _ _)
                  ["brainfuck2c"%string]
                  (mkEnv (fun _ => Failed "No such file or directory") "...")
                  "..." eq_refl eq_refl).
    + discriminate.
    + repeat constructor.
  - exact (proj1 (proj1 write_read_statements [mkASTNode TOKEN_PLUS 2 None 0] []
                    (mkASTNode TOKEN_INPUT 1 None 0) 1%nat (or_intror eq_refl))
                 eq_refl).
Defined.

(* ================================================================= *)
(** ** The tape size *)

(** C3 does not hold as the specification words it: an invocation that
    names a tape size of 100 after the source file still generates
    TAPE_SIZE 30000. *)
Lemma tape_size_option_is_ignored :
  exists p,
    main ["brainfuck2c"%string; "prog.bf"%string; "--tape-size"%string; "100"%string]
         (mkEnv (fun _ => Opened "+") EmptyString) = Some p /\
    status p = 0 /\
    declares_tape_size 100 (stdout p) = false /\
    declares_tape_size 30000 (stdout p) = true.
Proof. eexists. split; [reflexivity|]. repeat split. Qed.

(** C3, amended: the tape size is the constant TAPE_SIZE = 30000 of the
    transpiler itself; no argument of an invocation changes it.  Every run
    that succeeds writes the same opening lines, with the definition of
    TAPE_SIZE as 30000 and the buffer declared with TAPE_SIZE cells, and
    the arguments after the source file play no part. *)
Theorem tape_size_is_fixed :
  forall (argv : list string) (env : Env) (p : Process),
    main argv env = Some p -> status p = 0 ->
    (exists body,
        stdout p =
        "#include <stdio.h>" +++ LF +++ "#include <stdlib.h>" +++ LF +++ LF
        +++ "#define TAPE_SIZE 30000" +++ LF +++ LF
        +++ "int main(void) {" +++ LF
        +++ "    unsigned char array[TAPE_SIZE] = {0};" +++ LF
        +++ "    unsigned char *ptr = array;" +++ LF +++ LF
        +++ body) /\
    (forall arg0 path extra,
        argv = arg0 :: path :: extra -> main [arg0; path] env = Some p).
Proof.
  intros argv env p Hmain Hstatus. split.
  - unfold main in Hmain. destruct (read_source argv env) as [src|msg].
    + cbn zeta in Hmain. destruct (parseTokens (lex src)) as [ast|d|].
      * injection Hmain as <-.
        exists (generate_code ast (Z.of_nat (List.length ast)) 1 +++ epilogue).
        reflexivity.
      * injection Hmain as <-. discriminate.
      * discriminate.
    + injection Hmain as <-. discriminate.
  - intros arg0 path extra ->. exact Hmain.
Qed.

Lemma tape_size_is_fixed_witness :
  exists body,
    (preamble +++ generate_code [mkASTNode TOKEN_PLUS 1 None 0] 1 1 +++ epilogue) =
    "#include <stdio.h>" +++ LF +++ "#include <stdlib.h>" +++ LF +++ LF
    +++ "#define TAPE_SIZE 30000" +++ LF +++ LF
    +++ "int main(void) {" +++ LF
    +++ "    unsigned char array[TAPE_SIZE] = {0};" +++ LF
    +++ "    unsigned char *ptr = array;" +++ LF +++ LF
    +++ body.
Proof.
  exact (proj1 (tape_size_is_fixed
           ["brainfuck2c"%string; "prog.bf"%string; "--tape-size"%string; "100"%string]
           (mkEnv (fun _ => Opened "+") EmptyString) _ eq_refl eq_refl)).
Defined.

(* ================================================================= *)
(** ** Bytes that are no instruction, and offsets *)

(** C6 does not hold as the specification words it, on two counts: the tokens of "a+b+c" and of
    "++" are not the same sequences, as each token records the offset of
    its byte (1 and 3 against 0 and 1); and a NUL byte, which is none of
    the eight symbols, is not passed over: it ends the scan. *)
Lemma skipped_bytes_leave_a_trace :
  lex "a+b+c" <> lex "++" /\
  lex "a+b+c" = [mkToken TOKEN_PLUS 1; mkToken TOKEN_PLUS 3] /\
  lex "++" = [mkToken TOKEN_PLUS 0; mkToken TOKEN_PLUS 1] /\
  map type (lex (String NUL "+")) <> map type (lex "+").
Proof. repeat split; discriminate. Qed.

(** C6, amended: a byte other than NUL that is none of the eight symbols
    changes no token kind: with or without it the scanner gives the same
    sequence of kinds, which is that of the instruction symbols of the
    text; "a+b+c" and "++" both give two increment tokens, at the offsets
    of their own bytes. *)
Theorem non_instruction_bytes_are_skipped :
  (forall (before : string) (c : ascii) (after : string),
      token_of_char c = None -> c <> NUL ->
      map type (lex (before +++ String c after)) = map type (lex (before +++ after)) /\
      map type (lex (before +++ String c after)) =
        instructions (c_string (before +++ after))) /\
  map type (lex "a+b+c") = [TOKEN_PLUS; TOKEN_PLUS] /\
  map type (lex "++") = [TOKEN_PLUS; TOKEN_PLUS].
Proof.
  split; [|split; reflexivity].
  intros before c after Hc Hn.
  rewrite !lex_types, (c_string_skip _ _ _ Hc Hn). split; reflexivity.
Qed.

Lemma non_instruction_bytes_are_skipped_witness :
  map type (lex ("[-" +++ String " "%char "]x")) = map type (lex ("[-" +++ "]x")).
Proof.
  refine (proj1 (proj1 non_instruction_bytes_are_skipped "[-" " "%char "]x" eq_refl _)).
  discriminate.
Defined.

(** C9: every token of the scanner carries the zero-based index of its own
    byte in the source, bytes that are skipped counted, and along the
    token sequence these offsets increase strictly. *)
Theorem token_offsets :
  forall (src : string),
    Forall (token_at_its_byte src) (lex src) /\
    StronglySorted Z.lt (map pos (lex src)).
Proof.
  intros src. destruct (lex_loop_pos src 0) as [Hall Hsort].
  split; [|exact Hsort].
  eapply Forall_impl; [|exact Hall].
  intros t [Hr (c & Hget & Hty)]. exists c. split; [|exact Hty].
  unfold byte_at. rewrite Z.sub_0_r in Hget.
  destruct (Z.ltb_spec (pos t) 0); [lia | exact Hget].
Qed.

(* ================================================================= *)
(** ** The range of the counters *)




(* ================================================================= *)
(** ** Scanning a text in pieces *)

Lemma lex_loop_shift (src : string) :
  forall i k, lex_loop src (i + k) [] = map (shift_pos k) (lex_loop src i []).
Proof.
  induction src as [|c rest IH]; intros i k; [reflexivity|].
  rewrite !lex_loop_cons. destruct (Ascii.eqb c NUL); [reflexivity|].
  replace (i + k + 1) with (i + 1 + k) by lia.
  destruct (token_of_char c); cbn [map]; now rewrite IH.
Qed.

Lemma lex_loop_app (a b : string) :
  no_NUL a = true ->
  forall i, lex_loop (a +++ b) i [] =
            lex_loop a i [] ++ lex_loop b (i + Z.of_nat (String.length a)) [].
Proof.
  induction a as [|c a IH]; intros Ha i.
  - cbn. now rewrite Z.add_0_r.
  - cbn [no_NUL] in Ha. apply andb_true_iff in Ha as [Hc Ha].
    cbn [String.append]. rewrite !lex_loop_cons.
    destruct (Ascii.eqb c NUL); [discriminate|].
    rewrite (IH Ha). cbn [String.length].
    replace (i + 1 + Z.of_nat (String.length a))
      with (i + Z.of_nat (S (String.length a))) by lia.
    now destruct (token_of_char c).
Qed.

Lemma lex_loop_NUL (b : string) (i : Z) : lex_loop (String NUL b) i [] = [].
Proof. reflexivity. Qed.

(** X1: scanning composes: the tokens of a text with no NUL byte followed
    by another text are the tokens of the first, then those of the second
    with every offset moved by the length of the first. *)
Theorem lex_app :
  forall (a b : string),
    no_NUL a = true ->
    lex (a +++ b) = lex a ++ map (shift_pos (Z.of_nat (String.length a))) (lex b).
Proof.
  intros a b Ha. unfold lex. rewrite (lex_loop_app _ _ Ha).
  now rewrite <- (lex_loop_shift b 0).
Qed.

Lemma lex_app_witness :
  lex ("a+[" +++ "-]") =
  lex "a+[" ++ map (shift_pos 3) (lex "-]").
Proof. exact (lex_app "a+[" "-]" eq_refl). Defined.

(** X2: the scan never goes past a NUL byte: whatever follows the first
    NUL of the buffer, the tokens are those of the bytes before it. *)
Theorem lex_stops_at_NUL :
  forall (a b : string),
    no_NUL a = true -> lex (a +++ String NUL b) = lex a.
Proof.
  intros a b Ha. unfold lex. rewrite (lex_loop_app _ _ Ha), lex_loop_NUL.
  apply app_nil_r.
Qed.

Lemma lex_stops_at_NUL_witness : lex ("+>" +++ String NUL "]]") = lex "+>".
Proof. exact (lex_stops_at_NUL "+>" "]]" eq_refl). Defined.

Lemma lex_loop_complete (src : string) :
  forall (k : Z) (n : nat) (c : ascii) (ty : TokenType),
    String.get n src = Some c -> token_of_char c = Some ty ->
    (forall m, (m < n)%nat -> String.get m src <> Some NUL) ->
    In (mkToken ty (k + Z.of_nat n)) (lex_loop src k []).
Proof.
  induction src as [|a rest IH]; intros k n c ty Hget Hty Hnul; [discriminate|].
  rewrite lex_loop_cons. destruct n as [|n].
  - cbn in Hget. injection Hget as ->.
    destruct (Ascii.eqb_spec c NUL) as [->|_]; [discriminate|].
    rewrite Hty, Z.add_0_r. now left.
  - destruct (Ascii.eqb_spec a NUL) as [->|_].
    { exfalso. apply (Hnul 0%nat); [lia | reflexivity]. }
    assert (Hin : In (mkToken ty (k + 1 + Z.of_nat n)) (lex_loop rest (k + 1) [])).
    { apply (IH _ _ c); auto. intros m Hm. apply (Hnul (S m)). lia. }
    replace (k + Z.of_nat (S n)) with (k + 1 + Z.of_nat n) by lia.
    destruct (token_of_char a); [now right | exact Hin].
Qed.

(** X3: no instruction is lost: every instruction symbol of the source
    that no NUL byte precedes has its token, of its kind and at its
    offset, in the result of the scan. *)
Theorem lex_complete :
  forall (src : string) (i : Z) (c : ascii) (ty : TokenType),
    byte_at src i = Some c -> token_of_char c = Some ty ->
    (forall j, 0 <= j < i -> byte_at src j <> Some NUL) ->
    In (mkToken ty i) (lex src).
Proof.
  intros src i c ty Hget Hty Hnul. unfold byte_at in Hget.
  destruct (Z.ltb_spec i 0) as [|Hi]; [discriminate|].
  replace i with (0 + Z.of_nat (Z.to_nat i)) by lia.
  apply (lex_loop_complete src 0 _ c); auto.
  intros m Hm Hm'. apply (Hnul (Z.of_nat m)); [lia|].
  unfold byte_at. destruct (Z.ltb_spec (Z.of_nat m) 0); [lia|].
  now rewrite Nat2Z.id.
Qed.

Lemma lex_complete_witness : In (mkToken TOKEN_OUTPUT 4) (lex "ab[ .]").
Proof.
  apply (lex_complete "ab[ .]" 4 "."%char TOKEN_OUTPUT eq_refl eq_refl).
  intros j Hj.
  assert (Hcases : j = 0 \/ j = 1 \/ j = 2 \/ j = 3) by lia.
  destruct Hcases as [-> | [-> | [-> | ->]]]; discriminate.
Defined.

(* ================================================================= *)
(** ** The parser builds every level *)

Lemma skipn_head {A : Type} (l : list A) (i : nat) (x : A) (r : list A) :
  skipn i l = x :: r -> nth_error l i = Some x /\ skipn (S i) l = r.
Proof.
  intros H. split.
  - now rewrite <- hd_error_skipn, H.
  - change (S i) with (1 + i)%nat. now rewrite <- skipn_skipn, H.
Qed.

Lemma skipn_end {A : Type} (l : list A) (i : nat) :
  skipn i l = [] -> nth_error l i = None.
Proof. intros H. now rewrite <- hd_error_skipn, H. Qed.

Lemma merge_loop_run (ty : TokenType) (run tail : list Token) :
  Forall (fun t => type t = ty) run ->
  (forall t r, tail = t :: r -> type t <> ty) ->
  forall repeat index,
    merge_loop (run ++ tail) ty repeat index =
    (repeat + Z.of_nat (List.length run), (index + List.length run)%nat).
Proof.
  intros Hall Hnext. induction Hall as [|t run Ht _ IH]; intros repeat index.
  - cbn [app List.length]. rewrite Z.add_0_r, Nat.add_0_r.
    destruct tail as [|t r]; [reflexivity|]. cbn.
    destruct (TokenType_eqb_spec (type t) ty) as [E|_]; [|reflexivity].
    exfalso. now apply (Hnext t r eq_refl).
  - cbn [app merge_loop]. rewrite Ht, TokenType_eqb_refl, IH.
    f_equal; cbn [List.length]; lia.
Qed.

(** The converse of [parseLevel_sound]: where the tokens of a level and
    its end stand at the cursor, the call returns the nodes of the level. *)
Lemma parseLevel_complete (consumed : list Token) (new : list ASTNode) :
  Items consumed new ->
  forall (tokens : list Token) (fuel index : nat) (acc : list ASTNode)
         (insideLoop : bool) (rest : list Token),
    skipn index tokens = consumed ++ rest ->
    (if insideLoop
     then exists c rest', rest = c :: rest' /\ type c = TOKEN_LOOP_END
     else rest = []) ->
    (List.length tokens - index < fuel)%nat ->
    parseLevel fuel tokens index acc insideLoop =
    Ret (acc ++ new,
         (index + List.length consumed + (if insideLoop then 1 else 0))%nat).
Proof.
  induction 1 as [|o c body rest0 kids nodes Ho Hc Hb IHb Hr IHr
                  |ty run rest0 nodes Hp Hne Hall Hnext Hr IHr];
    intros tokens fuel index acc b rest Hsk Hend Hfuel;
    (destruct fuel as [|fuel]; [lia|]).
  - cbn [app List.length] in *. rewrite app_nil_r, Nat.add_0_r.
    destruct b.
    + destruct Hend as (c & rest' & E & Hc). rewrite E in Hsk.
      apply skipn_head in Hsk as [Hn _].
      rewrite (parseLevel_end _ _ _ _ _ _ Hn Hc). now rewrite Nat.add_1_r.
    + rewrite Hend in Hsk. apply skipn_end in Hsk.
      rewrite (parseLevel_eof _ _ _ _ _ Hsk). now rewrite Nat.add_0_r.
  - cbn [app] in Hsk. apply skipn_head in Hsk as [Hn Hsk].
    assert (Hlt : (index < List.length tokens)%nat)
      by (apply nth_error_Some; congruence).
    rewrite (parseLevel_start _ _ _ _ _ _ Hn Ho).
    rewrite <- app_assoc in Hsk. cbn [app] in Hsk.
    rewrite (IHb tokens fuel (S index) [] true (c :: rest0 ++ rest) Hsk)
      by (eauto || lia).
    cbn [bind app].
    assert (Hsk' : skipn (S index + List.length body + 1) tokens = rest0 ++ rest).
    { replace (S index + List.length body + 1)%nat
        with (S index + List.length (body ++ [c]))%nat
        by (rewrite length_app; cbn; lia).
      apply skipn_past. now rewrite <- app_assoc. }
    rewrite (IHr tokens fuel _ _ b rest Hsk' Hend) by lia.
    rewrite <- app_assoc. cbn [app List.length]. rewrite length_app.
    cbn [List.length]. do 2 f_equal. lia.
  - rewrite <- app_assoc in Hsk.
    destruct run as [|t run]; [congruence|].
    pose proof Hsk as Hsk0. cbn [app] in Hsk0. apply skipn_head in Hsk0 as [Hn _].
    assert (Hlt : (index < List.length tokens)%nat)
      by (apply nth_error_Some; congruence).
    assert (Ht : type t = ty) by (now inversion Hall).
    assert (Hp' : is_primitive (type t) = true) by now rewrite Ht.
    rewrite (parseLevel_primitive _ _ _ _ _ _ Hn Hp'), Ht, Hsk.
    rewrite merge_loop_run; [| exact Hall |].
    2:{ intros t' r E. destruct rest0 as [|t0 rest0].
        - cbn in E. destruct b; [|congruence].
          destruct Hend as (c & rest' & E' & Hc).
          rewrite E' in E. injection E as <- _.
          rewrite Hc. apply primitive_not_bracket in Hp. intros E. symmetry in E. tauto.
        - injection E as <- _. now apply (Hnext t0 rest0). }
    cbn [Z.add].
    rewrite (IHr tokens fuel _ _ b rest (skipn_past _ _ _ _ Hsk) Hend)
      by (cbn [List.length]; lia).
    rewrite <- app_assoc, length_app. cbn [app]. do 2 f_equal. lia.
Qed.

Lemma Items_parses (tokens : list Token) (nodes : list ASTNode) :
  Items tokens nodes -> parseTokens tokens = Ret nodes.
Proof.
  intros H. unfold parseTokens.
  rewrite (parseLevel_complete _ _ H tokens _ 0%nat [] false []);
    [reflexivity | now rewrite app_nil_r | reflexivity | lia].
Qed.

(* ================================================================= *)
(** ** Trees in the parser's form *)

(** Induction over a tree: a node with an array, once its children are
    done. *)
Lemma ASTNode_tree_ind (P : ASTNode -> Prop) :
  (forall ty cnt numCh, P (mkASTNode ty cnt None numCh)) ->
  (forall ty cnt kids numCh, Forall P kids -> P (mkASTNode ty cnt (Some kids) numCh)) ->
  forall node, P node.
Proof.
  intros P_leaf P_array. fix tree 1.
  intros [ty cnt [kids|] numCh]; [|apply P_leaf].
  apply P_array. induction kids as [|kid kids all]; constructor;
    [apply tree | exact all].
Qed.

Lemma Forall_tree (P : ASTNode -> Prop) (nodes : list ASTNode) :
  (forall node, P node) -> Forall P nodes.
Proof. intros H. induction nodes; constructor; auto. Qed.

Lemma no_adjacent_same_kind_tail (a : ASTNode) (nodes : list ASTNode) :
  no_adjacent_same_kind (a :: nodes) = true -> no_adjacent_same_kind nodes = true.
Proof.
  destruct nodes as [|b nodes]; [reflexivity|].
  rewrite no_adjacent_same_kind_cons. intros H. now apply andb_true_iff in H.
Qed.

(** The kinds a node of the parser's form stands for begin with its own. *)
Lemma flatten_node_head (node : ASTNode) :
  shaped_node node = true -> merged_node node = true ->
  exists r, flatten_node node = node_type node :: r.
Proof.
  destruct node as [ty cnt ch numCh]. cbn [shaped_node merged_node node_type].
  intros Hs Hm. apply andb_true_iff in Hs as [Hs _]. unfold node_shape in Hs.
  cbn [node_type children count numChildren] in Hs.
  apply andb_true_iff in Hm as [Hm _].
  destruct ch as [kids|].
  - destruct ty; try discriminate. eexists. reflexivity.
  - destruct ty; rewrite ?andb_false_r in Hs; try discriminate;
      cbn [is_primitive TokenType_eqb orb] in Hm; apply Z.leb_le in Hm;
      cbn [flatten_node]; (destruct (Z.to_nat cnt) as [|k] eqn:E; [lia|]);
      eexists; reflexivity.
Qed.

Lemma map_type_repeat (ty : TokenType) (n : nat) (run : list Token) :
  map type run = repeat ty n ->
  Forall (fun t => type t = ty) run /\ List.length run = n.
Proof.
  revert n. induction run as [|t run IH]; intros [|n] H; try discriminate.
  - split; [constructor | reflexivity].
  - cbn in H. injection H as Ht H. destruct (IH _ H) as [Hall Hlen].
    split; [now constructor | cbn; now rewrite Hlen].
Qed.

(** A list of nodes whose arrays are levels of their tokens is one. *)
Lemma canonical_level (nodes : list ASTNode) :
  Forall (fun node =>
            forall kids, children node = Some kids ->
            merged kids = true -> shaped kids = true ->
            forall tokens, map type tokens = flatten kids -> Items tokens kids)
         nodes ->
  merged nodes = true -> shaped nodes = true ->
  forall tokens, map type tokens = flatten nodes -> Items tokens nodes.
Proof.
  induction 1 as [|node nodes Hnode _ IH]; intros Hm Hs tokens Hmap.
  - cbn in Hmap. apply map_eq_nil in Hmap as ->. constructor.
  - unfold merged in Hm. cbn [forallb] in Hm.
    apply andb_true_iff in Hm as [Hadj Hm]. apply andb_true_iff in Hm as [Hmn Hml].
    unfold shaped in Hs. cbn [forallb] in Hs. apply andb_true_iff in Hs as [Hsn Hsl].
    assert (Hrest : forall rest, map type rest = flatten nodes -> Items rest nodes).
    { apply IH; [|exact Hsl]. unfold merged.
      now rewrite (no_adjacent_same_kind_tail _ _ Hadj), Hml. }
    assert (Hnext : is_primitive (node_type node) = true ->
                    forall rest t r, map type rest = flatten nodes ->
                                     rest = t :: r -> type t <> node_type node).
    { intros Hp rest t r Hr ->. destruct nodes as [|b nodes]; [discriminate|].
      cbn [forallb] in Hml, Hsl.
      apply andb_true_iff in Hml as [Hmb _]. apply andb_true_iff in Hsl as [Hsb _].
      destruct (flatten_node_head b Hsb Hmb) as [fb Hfb].
      unfold flatten in Hr. cbn [flat_map map] in Hr. rewrite Hfb in Hr.
      injection Hr as Ht _. rewrite Ht.
      rewrite no_adjacent_same_kind_cons in Hadj.
      apply andb_true_iff in Hadj as [Hadj _]. unfold same_kind in Hadj.
      rewrite Hp in Hadj. cbn in Hadj.
      destruct (TokenType_eqb_spec (node_type node) (node_type b)); [discriminate|].
      congruence. }
    unfold flatten in Hmap. cbn [flat_map] in Hmap.
    apply map_eq_app in Hmap as (t1 & t2 & -> & H1 & H2).
    destruct node as [ty cnt ch numCh]. cbn [node_type] in Hnext.
    pose proof Hsn as Hshape. cbn [shaped_node] in Hshape.
    apply andb_true_iff in Hshape as [Hshape Hkids]. unfold node_shape in Hshape.
    cbn [node_type children count numChildren] in Hshape.
    cbn [merged_node] in Hmn. apply andb_true_iff in Hmn as [Hcnt Hmk].
    destruct ch as [kids|].
    + (* a loop *)
      destruct ty; try discriminate.
      apply andb_true_iff in Hshape as [Hc0 Hnum].
      apply Z.eqb_eq in Hc0, Hnum. subst cnt numCh.
      cbn [flatten_node app] in H1.
      apply map_eq_cons in H1 as (o & t1' & -> & Ho & H1).
      apply map_eq_app in H1 as (body & cl & -> & Hbody & Hcl).
      apply map_eq_cons in Hcl as (c & nil' & -> & Hc & Hnil).
      apply map_eq_nil in Hnil as ->.
      cbn [app]. rewrite <- app_assoc. cbn [app].
      constructor; auto.
    + (* a repeated operation *)
      assert (Hp : is_primitive ty = true)
        by (destruct ty; rewrite ?andb_false_r in Hshape; try discriminate; reflexivity).
      rewrite Hp in Hcnt. apply Z.leb_le in Hcnt.
      assert (numCh = 0) as ->
        by (destruct ty; try discriminate; cbn [andb] in Hshape; now apply Z.eqb_eq).
      cbn [flatten_node] in H1. apply map_type_repeat in H1 as [Hall Hlen].
      replace cnt with (Z.of_nat (List.length t1)) by lia.
      constructor; auto.
      * intros ->. cbn in Hlen. lia.
      * intros t r E. now apply (Hnext Hp t2 t r).
Qed.

Lemma canonical_Items (nodes : list ASTNode) (tokens : list Token) :
  canonical nodes = true -> map type tokens = flatten nodes -> Items tokens nodes.
Proof.
  unfold canonical. intros H. apply andb_true_iff in H as [Hm Hs].
  apply canonical_level; [|exact Hm | exact Hs].
  apply Forall_tree. intros node.
  induction node as [ty cnt numCh | ty cnt kids numCh IH] using ASTNode_tree_ind.
  - intros kids [=].
  - intros kids' [= <-] Hmk Hsk toks. now apply canonical_level.
Qed.

(** X6: the parser undoes the reading back of a tree: for every tree in
    the parser's form (merged, and with the two node shapes), parsing any
    token sequence whose kinds are the tree read back returns that tree; so
    two such trees that read back alike are the same tree. *)
Theorem parse_flatten_round_trip :
  forall (nodes : list ASTNode) (tokens : list Token),
    canonical nodes = true ->
    map type tokens = flatten nodes ->
    parseTokens tokens = Ret nodes /\
    (forall nodes', canonical nodes' = true -> flatten nodes' = flatten nodes ->
                    nodes' = nodes).
Proof.
  intros nodes tokens Hc Hmap. split.
  - now apply Items_parses, canonical_Items.
  - intros nodes' Hc' Hf. rewrite <- Hf in Hmap.
    pose proof (Items_parses _ _ (canonical_Items _ _ Hc' Hmap)) as H'.
    rewrite Hf in Hmap.
    pose proof (Items_parses _ _ (canonical_Items _ _ Hc Hmap)) as H.
    congruence.
Qed.

Lemma parse_flatten_round_trip_witness :
  parseTokens [mkToken TOKEN_LOOP_START 7; mkToken TOKEN_MINUS 7; mkToken TOKEN_MINUS 7;
               mkToken TOKEN_LOOP_END 7; mkToken TOKEN_OUTPUT 7] =
  Ret [mkASTNode TOKEN_LOOP_START 0 (Some [mkASTNode TOKEN_MINUS 2 None 0]) 1;
       mkASTNode TOKEN_OUTPUT 1 None 0].
Proof.
  exact (proj1 (parse_flatten_round_trip
                  [mkASTNode TOKEN_LOOP_START 0 (Some [mkASTNode TOKEN_MINUS 2 None 0]) 1;
                   mkASTNode TOKEN_OUTPUT 1 None 0]
                  [mkToken TOKEN_LOOP_START 7; mkToken TOKEN_MINUS 7; mkToken TOKEN_MINUS 7;
                   mkToken TOKEN_LOOP_END 7; mkToken TOKEN_OUTPUT 7]
                  eq_refl eq_refl)).
Defined.

(** The depth counter looks at kinds alone, but for the offset it reports. *)
Lemma bracket_check_kinds (tokens : list Token) :
  forall tokens' depth,
    map type tokens = map type tokens' ->
    match bracket_check tokens depth, bracket_check tokens' depth with
    | None, None => True
    | Some UnmatchedOpen, Some UnmatchedOpen => True
    | Some (UnmatchedClose _), Some (UnmatchedClose _) => True
    | _, _ => False
    end.
Proof.
  induction tokens as [|t tokens IH]; intros [|t' tokens'] depth H; try discriminate.
  - cbn. now destruct depth.
  - cbn in H. injection H as Ht H. cbn [bracket_check]. rewrite <- Ht.
    destruct (type t); try (now apply IH).
    destruct depth; [exact I | now apply IH].
Qed.

Lemma parseTokens_kinds (tokens tokens' : list Token) (nodes : list ASTNode) :
  map type tokens = map type tokens' ->
  parseTokens tokens = Ret nodes -> parseTokens tokens' = Ret nodes.
Proof.
  intros Hk H. apply parseTokens_Items in H.
  apply Items_parses, canonical_Items.
  - unfold canonical. now rewrite (Items_merged _ _ H), (Items_shaped _ _ H).
  - now rewrite (Items_flatten _ _ H).
Qed.

(** X4: the tree depends on the kinds of the tokens alone: two token
    sequences of the same kinds, whatever their offsets, give the same
    tree, or fail both with the diagnostic of the same sort. *)
Theorem parse_depends_on_kinds :
  forall (tokens tokens' : list Token),
    map type tokens = map type tokens' ->
    (forall nodes, parseTokens tokens = Ret nodes -> parseTokens tokens' = Ret nodes) /\
    (parseTokens tokens = Exit UnmatchedOpen -> parseTokens tokens' = Exit UnmatchedOpen) /\
    (forall p, parseTokens tokens = Exit (UnmatchedClose p) ->
               exists p', parseTokens tokens' = Exit (UnmatchedClose p')).
Proof.
  intros tokens tokens' Hk.
  pose proof (bracket_check_kinds tokens tokens' 0 Hk) as Hb.
  split; [|split].
  - intros nodes. now apply parseTokens_kinds.
  - intros H. apply parseTokens_Exit in H. rewrite H in Hb.
    apply parseTokens_Exit. destruct (bracket_check tokens' 0) as [[p'|]|]; tauto.
  - intros p H. apply parseTokens_Exit in H. rewrite H in Hb.
    destruct (bracket_check tokens' 0) as [[p'|]|] eqn:E; try tauto.
    exists p'. now apply parseTokens_Exit.
Qed.

Lemma parse_depends_on_kinds_witness :
  parseTokens [mkToken TOKEN_PLUS 10; mkToken TOKEN_PLUS 20] =
  Ret [mkASTNode TOKEN_PLUS 2 None 0].
Proof.
  exact (proj1 (parse_depends_on_kinds (lex "++")
                  [mkToken TOKEN_PLUS 10; mkToken TOKEN_PLUS 20] eq_refl)
               _ eq_refl).
Defined.

(** The depth counter reports an open loop exactly for the sequences that
    are correctly nested and close fewer loops than are open. *)
Lemma bracket_check_open (tokens : list Token) :
  forall depth,
    bracket_check tokens depth = Some UnmatchedOpen <->
    nested_from depth tokens /\
    (count_type TOKEN_LOOP_END tokens < depth + count_type TOKEN_LOOP_START tokens)%nat.
Proof.
  induction tokens as [|t tokens IH]; intros depth.
  - cbn. unfold nested_from. split.
    + destruct depth; [discriminate|]. intros _. split; [|cbn; lia].
      intros n. rewrite firstn_nil. cbn. lia.
    + intros [_ H]. cbn in H. destruct depth; [lia | reflexivity].
  - cbn [bracket_check]. destruct (type t) eqn:Ht;
      try (rewrite IH, (nested_from_cons depth depth), !count_type_cons, Ht;
           [reflexivity | intros l; now rewrite !count_type_cons, Ht]).
    + rewrite IH, (nested_from_cons depth (S depth)), !count_type_cons, Ht.
      * cbn. split; intros [H1 H2]; (split; [exact H1 | lia]).
      * intros l. rewrite !count_type_cons, Ht. cbn. lia.
    + destruct depth as [|depth].
      * split; [discriminate|]. intros [H _]. specialize (H 1%nat).
        cbn [firstn] in H. rewrite !count_type_cons, Ht in H. cbn in H. lia.
      * rewrite IH, (nested_from_cons (S depth) depth), !count_type_cons, Ht.
        -- cbn. split; intros [H1 H2]; (split; [exact H1 | lia]).
        -- intros l. rewrite !count_type_cons, Ht. cbn. lia.
Qed.

(** X5: the parser accepts exactly the balanced sequences: it returns a
    tree if and only if the markers are correctly nested and equal in
    number; it reports an unmatched open marker if and only if they are
    correctly nested with close markers missing; and an unmatched close
    marker if and only if some prefix closes more loops than it opened. *)
Theorem parse_outcome_by_markers :
  forall (tokens : list Token),
    ((exists nodes, parseTokens tokens = Ret nodes) <->
     well_nested tokens /\
     count_type TOKEN_LOOP_END tokens = count_type TOKEN_LOOP_START tokens) /\
    (parseTokens tokens = Exit UnmatchedOpen <->
     well_nested tokens /\
     (count_type TOKEN_LOOP_END tokens < count_type TOKEN_LOOP_START tokens)%nat) /\
    ((exists p, parseTokens tokens = Exit (UnmatchedClose p)) <->
     ~ well_nested tokens).
Proof.
  intros tokens. unfold well_nested.
  pose proof (bracket_check_balanced tokens 0) as Hbal.
  pose proof (bracket_check_open tokens 0) as Hopen.
  pose proof (parseTokens_spec tokens) as Hs.
  cbn [Nat.add] in Hbal, Hopen.
  split; [|split].
  - rewrite <- Hbal. split.
    + intros [nodes H]. destruct (bracket_check tokens 0); [congruence | reflexivity].
    + intros E. rewrite E in Hs. destruct Hs as (nodes & H & _). eauto.
  - rewrite <- Hopen. apply parseTokens_Exit.
  - split.
    + intros [p H] Hn. apply parseTokens_Exit in H.
      assert (Hle := Hn (List.length tokens)). rewrite firstn_all in Hle.
      cbn [Nat.add] in Hle.
      destruct (Nat.eq_dec (count_type TOKEN_LOOP_END tokens)
                           (count_type TOKEN_LOOP_START tokens)) as [E|N].
      * assert (bracket_check tokens 0 = None) by (apply Hbal; auto). congruence.
      * assert (bracket_check tokens 0 = Some UnmatchedOpen)
          by (apply Hopen; split; [auto | lia]). congruence.
    + intros Hn. destruct (bracket_check tokens 0) as [[p|]|] eqn:E.
      * exists p. now apply parseTokens_Exit.
      * exfalso. apply Hn. now apply Hopen.
      * exfalso. apply Hn. now apply Hbal.
Qed.

(* ================================================================= *)
(** ** Whole runs *)

(** X7: the offset in the diagnostic is the byte offset in the source
    file: when the text before a close marker holds no NUL byte and its own
    markers match, the run fails with the unmatched-close message carrying
    the number of bytes before the marker, bytes that are no instruction
    counted, and writes nothing else. *)
Theorem unmatched_close_reports_byte_offset :
  forall (argv : list string) (env : Env) (before after : string),
    read_source argv env = Opened (before +++ String "]"%char after) ->
    no_NUL before = true ->
    bracket_check (lex before) 0 = None ->
    main argv env =
    Some (mkProcess EmptyString
                    ("Error: Unmatched ']' at position "
                       +++ printf_d (Z.of_nat (String.length before)) +++ LF)
                    EXIT_FAILURE).
Proof.
  intros argv env before after Hr Hn Hb.
  apply (main_parse_error _ _ _ (UnmatchedClose (Z.of_nat (String.length before))) Hr).
  unfold lex in Hb |- *. rewrite (lex_loop_app _ _ Hn), lex_loop_cons.
  cbn [Ascii.eqb Bool.eqb NUL token_of_char].
  rewrite (bracket_check_prefix _ 0 Hb 0 _ : bracket_check (_ ++ _) 0 = _).
  reflexivity.
Qed.

Lemma unmatched_close_reports_byte_offset_witness :
  run_stdin "[a-] b]c[" =
  Some (mkProcess EmptyString ("Error: Unmatched ']' at position 6" +++ LF) EXIT_FAILURE).
Proof.
  exact (unmatched_close_reports_byte_offset
           ["brainfuck2c"%string]
           (mkEnv (fun _ => Failed "No such file or directory") "[a-] b]c[")
           "[a-] b" "c[" eq_refl eq_refl eq_refl).
Defined.

(** Two sources whose scans have the same kinds of tokens run alike. *)
Lemma main_kinds (argv argv' : list string) (env env' : Env) (src src' : string) :
  read_source argv env = Opened src ->
  read_source argv' env' = Opened src' ->
  map type (lex src) = map type (lex src') ->
  exists p p',
    main argv env = Some p /\ main argv' env' = Some p' /\
    stdout p = stdout p' /\ status p = status p' /\
    (status p = 0 -> p = p').
Proof.
  intros Hr Hr' Hk.
  pose proof (bracket_check_kinds _ _ 0 Hk) as Hb.
  destruct (bracket_check (lex src) 0) as [d|] eqn:E;
    destruct (bracket_check (lex src') 0) as [d'|] eqn:E';
    [| now destruct d | contradiction |].
  - rewrite (main_parse_error _ _ _ _ Hr E), (main_parse_error _ _ _ _ Hr' E').
    do 2 eexists. repeat split; try reflexivity. discriminate.
  - destruct (main_success _ _ _ Hr E) as (ast & Hp & ->).
    unfold main. rewrite Hr'. cbn zeta.
    rewrite (parseTokens_kinds _ _ _ Hk Hp).
    do 2 eexists. repeat split; reflexivity.
Qed.

(** X8: bytes that are no instruction change nothing of what is generated:
    with or without such a byte (other than NUL) in the source, the run has
    the same standard output and the same status, and when it succeeds the
    same result altogether. *)
Theorem comments_do_not_change_the_output :
  forall (argv argv' : list string) (env env' : Env)
         (before : string) (c : ascii) (after : string),
    token_of_char c = None -> c <> NUL ->
    read_source argv env = Opened (before +++ String c after) ->
    read_source argv' env' = Opened (before +++ after) ->
    exists p p',
      main argv env = Some p /\ main argv' env' = Some p' /\
      stdout p = stdout p' /\ status p = status p' /\
      (status p = 0 -> p = p').
Proof.
  intros argv argv' env env' before c after Hc Hn Hr Hr'.
  apply (main_kinds _ _ _ _ _ _ Hr Hr').
  now rewrite !lex_types, (c_string_skip _ _ _ Hc Hn).
Qed.

Lemma comments_do_not_change_the_output_witness :
  exists p p',
    run_stdin "+ [-]" = Some p /\ run_stdin "+[-]" = Some p' /\
    stdout p = stdout p' /\ status p = status p' /\
    (status p = 0 -> p = p').
Proof.
  refine (comments_do_not_change_the_output
            ["brainfuck2c"%string] ["brainfuck2c"%string]
            (mkEnv (fun _ => Failed "No such file or directory") "+ [-]")
            (mkEnv (fun _ => Failed "No such file or directory") "+[-]")
            "+" " "%char "[-]" eq_refl _ eq_refl eq_refl).
  discriminate.
Defined.


(** X10: a source with no instruction symbol before its first NUL byte (the
    empty source among them) gives the empty program: the preamble
    followed at once by the closing lines, with status 0. *)
Theorem source_without_instructions :
  forall (argv : list string) (env : Env) (src : string),
    read_source argv env = Opened src ->
    instructions (c_string src) = [] ->
    main argv env = Some (mkProcess (preamble +++ epilogue) EmptyString 0).
Proof.
  intros argv env src Hr Hi. unfold main. rewrite Hr. cbn zeta.
  rewrite <- lex_types in Hi. apply map_eq_nil in Hi. now rewrite Hi.
Qed.

Lemma source_without_instructions_witness :
  run_stdin "no code here" = Some (mkProcess (preamble +++ epilogue) EmptyString 0).
Proof.
  exact (source_without_instructions
           ["brainfuck2c"%string]
           (mkEnv (fun _ => Failed "No such file or directory") "no code here")
           "no code here" eq_refl eq_refl).
Defined.

(* ================================================================= *)
(** ** The delimiters of the generated text *)

Section Delimiters.

Variables opening closing : ascii.

Lemma delimiter_check_app (a b : string) :
  forall depth depth',
    delimiter_check opening closing a depth = Some depth' ->
    delimiter_check opening closing (a +++ b) depth =
    delimiter_check opening closing b depth'.
Proof.
  induction a as [|c a IH]; intros depth depth' H; cbn in H |- *.
  - now injection H as <-.
  - destruct (Ascii.eqb c opening); [now apply IH|].
    destruct (Ascii.eqb c closing); [|now apply IH].
    destruct depth; [discriminate | now apply IH].
Qed.

End Delimiters.

Lemma no_delimiter_brace (text : string) (depth : nat) :
  no_delimiter text = true -> brace_check text depth = Some depth.
Proof.
  unfold brace_check. induction text as [|c text IH]; intros H; [reflexivity|].
  cbn in H |- *. repeat (apply andb_true_iff in H as [H ?]).
  destruct (Ascii.eqb c "{"); [discriminate|].
  destruct (Ascii.eqb c "}"); [discriminate|]. auto.
Qed.

Lemma no_delimiter_paren (text : string) (depth : nat) :
  no_delimiter text = true -> paren_check text depth = Some depth.
Proof.
  unfold paren_check. induction text as [|c text IH]; intros H; [reflexivity|].
  cbn in H |- *. repeat (apply andb_true_iff in H as [H ?]).
  destruct (Ascii.eqb c "("); [discriminate|].
  destruct (Ascii.eqb c ")"); [discriminate|]. auto.
Qed.

Lemma no_delimiter_uint (d : Decimal.uint) :
  no_delimiter (NilZero.string_of_uint d) = true.
Proof.
  assert (H : forall u, no_delimiter (NilEmpty.string_of_uint u) = true)
    by (induction u; cbn; auto).
  destruct d; [reflexivity | apply H ..].
Qed.

Lemma no_delimiter_printf_d (n : Z) : no_delimiter (printf_d n) = true.
Proof.
  unfold printf_d. destruct (Z.to_int n); cbn; apply no_delimiter_uint.
Qed.

Lemma no_delimiter_indent (level : nat) : no_delimiter (print_indent level) = true.
Proof. induction level; cbn; auto. Qed.

Lemma for_each_node_braces (indent_level : nat) (kids : list ASTNode) :
  Forall (fun node => forall indent depth,
              brace_check (generate_node node indent) depth = Some depth) kids ->
  forall n depth,
    brace_check (for_each_node (fun child => generate_node child indent_level) kids n)
                depth = Some depth.
Proof.
  unfold brace_check.
  induction 1 as [|kid kids Hkid _ IH]; intros [|n] depth; try reflexivity.
  cbn [for_each_node]. erewrite delimiter_check_app by apply Hkid. apply IH.
Qed.

Lemma for_each_node_parens (indent_level : nat) (kids : list ASTNode) :
  Forall (fun node => forall indent depth,
              paren_check (generate_node node indent) depth = Some depth) kids ->
  forall n depth,
    paren_check (for_each_node (fun child => generate_node child indent_level) kids n)
                depth = Some depth.
Proof.
  unfold paren_check.
  induction 1 as [|kid kids Hkid _ IH]; intros [|n] depth; try reflexivity.
  cbn [for_each_node]. erewrite delimiter_check_app by apply Hkid. apply IH.
Qed.

Lemma generate_node_braces (node : ASTNode) :
  forall indent depth, brace_check (generate_node node indent) depth = Some depth.
Proof.
  induction node as [ty cnt numCh | ty cnt kids numCh IH] using ASTNode_tree_ind;
    intros indent depth.
  - unfold brace_check.
    destruct ty; cbn [generate_node]; try destruct (cnt =? 1);
      delimiter_pieces delimiter_check_app no_delimiter_brace
                       no_delimiter_indent no_delimiter_printf_d.
  - pose proof (for_each_node_braces (S indent) kids IH (Z.to_nat numCh)) as Hkids.
    unfold brace_check in *.
    destruct ty; cbn [generate_node]; try destruct (cnt =? 1);
      delimiter_pieces delimiter_check_app no_delimiter_brace
                       no_delimiter_indent no_delimiter_printf_d.
Qed.

Lemma generate_node_parens (node : ASTNode) :
  forall indent depth, paren_check (generate_node node indent) depth = Some depth.
Proof.
  induction node as [ty cnt numCh | ty cnt kids numCh IH] using ASTNode_tree_ind;
    intros indent depth.
  - unfold paren_check.
    destruct ty; cbn [generate_node]; try destruct (cnt =? 1);
      delimiter_pieces delimiter_check_app no_delimiter_paren
                       no_delimiter_indent no_delimiter_printf_d.
  - pose proof (for_each_node_parens (S indent) kids IH (Z.to_nat numCh)) as Hkids.
    unfold paren_check in *.
    destruct ty; cbn [generate_node]; try destruct (cnt =? 1);
      delimiter_pieces delimiter_check_app no_delimiter_paren
                       no_delimiter_indent no_delimiter_printf_d.
Qed.

(** X11: the generated text is well delimited: in the code generated for
    any tree, and in the whole output of every run that succeeds, each
    closing brace and each closing parenthesis has its opening partner
    before it, and none is left open at the end. *)
Theorem generated_text_is_well_delimited :
  (forall (nodes : list ASTNode) (numNodes : Z) (indent_level depth : nat),
      brace_check (generate_code nodes numNodes indent_level) depth = Some depth /\
      paren_check (generate_code nodes numNodes indent_level) depth = Some depth) /\
  (forall (argv : list string) (env : Env) (p : Process),
      main argv env = Some p -> status p = 0 ->
      brace_check (stdout p) 0 = Some 0%nat /\ paren_check (stdout p) 0 = Some 0%nat).
Proof.
  assert (Hcode : forall nodes numNodes indent_level depth,
             brace_check (generate_code nodes numNodes indent_level) depth = Some depth /\
             paren_check (generate_code nodes numNodes indent_level) depth = Some depth).
  { intros nodes numNodes indent_level depth. unfold generate_code. split.
    - apply for_each_node_braces, Forall_forall. intros node _.
      apply generate_node_braces.
    - apply for_each_node_parens, Forall_forall. intros node _.
      apply generate_node_parens. }
  split; [exact Hcode|].
  intros argv env p Hmain Hstatus. unfold main in Hmain.
  destruct (read_source argv env) as [src|msg].
  2:{ injection Hmain as <-. discriminate. }
  cbn zeta in Hmain. destruct (parseTokens (lex src)) as [ast|d|]; try discriminate.
  2:{ injection Hmain as <-. discriminate. }
  replace p with (mkProcess (preamble +++ generate_code ast (Z.of_nat (List.length ast)) 1
                                     +++ epilogue) EmptyString 0) by congruence.
  cbn [stdout].
  pose proof (fun d => proj1 (Hcode ast (Z.of_nat (List.length ast)) 1%nat d)) as Hb.
  pose proof (fun d => proj2 (Hcode ast (Z.of_nat (List.length ast)) 1%nat d)) as Hp.
  unfold brace_check, paren_check in *. split.
  - erewrite delimiter_check_app by reflexivity.
    erewrite delimiter_check_app by apply (Hb 1%nat). reflexivity.
  - erewrite delimiter_check_app by reflexivity.
    erewrite delimiter_check_app by apply (Hp 0%nat). reflexivity.
Qed.

Lemma generated_text_is_well_delimited_witness :
  brace_check (preamble +++ generate_code [mkASTNode TOKEN_LOOP_START 0
                                             (Some [mkASTNode TOKEN_OUTPUT 2 None 0]) 1]
                                          1 1 +++ epilogue) 0 = Some 0%nat.
Proof.
  exact (proj1 (proj2 generated_text_is_well_delimited
                  ["brainfuck2c"%string]
                  (mkEnv (fun _ => Failed "No such file or directory") "[..]")
                  _ eq_refl eq_refl)).
Defined.

(* ================================================================= *)
(** ** Runs of one arithmetic symbol *)

Lemma generate_node_arithmetic (node : ASTNode) (indent_level : nat) :
  is_arithmetic (node_type node) = true ->
  generate_node node indent_level =
  print_indent indent_level +++ assignment_target (node_type node)
    +++ printf_d (count node) +++ ";" +++ LF.
Proof. destruct node as [ty cnt ch numCh]. destruct ty; try discriminate; reflexivity. Qed.

Lemma lex_repeat_byte (c : ascii) (ty : TokenType) (n : nat) :
  token_of_char c = Some ty ->
  Forall (fun t => type t = ty) (lex (repeat_byte c n)) /\
  List.length (lex (repeat_byte c n)) = n.
Proof.
  intros Hc. apply map_type_repeat. rewrite lex_types.
  assert (Hn : Ascii.eqb c NUL = false).
  { destruct (Ascii.eqb_spec c NUL) as [->|]; [discriminate | reflexivity]. }
  induction n as [|n IH]; [reflexivity|].
  cbn. rewrite Hn. cbn. now rewrite Hc, IH.
Qed.

(** X12: a node of one of the four arithmetic kinds, wherever it stands in
    an array that is generated, is one assignment whose number is a literal
    that denotes the count; and a source that is a run of one arithmetic
    symbol, however long, gives that one assignment, with the length of
    the run as its number, between the preamble and the closing lines. *)
Theorem arithmetic_runs_are_one_statement :
  (forall (before after : list ASTNode) (node : ASTNode) (indent_level : nat),
      is_arithmetic (node_type node) = true ->
      exists literal,
        literal_value literal = Some (count node) /\
        generate_code (before ++ node :: after)
                      (Z.of_nat (List.length (before ++ node :: after))) indent_level =
        generate_code before (Z.of_nat (List.length before)) indent_level
        +++ (print_indent indent_level +++ assignment_target (node_type node)
               +++ literal +++ ";" +++ LF)
        +++ generate_code after (Z.of_nat (List.length after)) indent_level) /\
  (forall (argv : list string) (env : Env) (c : ascii) (ty : TokenType) (n : nat),
      token_of_char c = Some ty -> is_arithmetic ty = true ->
      read_source argv env = Opened (repeat_byte c (S n)) ->
      main argv env =
      Some (mkProcess (preamble
                         +++ (print_indent 1 +++ assignment_target ty
                                +++ printf_d (Z.of_nat (S n)) +++ ";" +++ LF)
                         +++ epilogue)
                      EmptyString 0)).
Proof.
  split.
  - intros before after node indent_level Hty.
    exists (printf_d (count node)). split; [apply printf_d_value|].
    rewrite generate_code_app, generate_code_cons.
    now rewrite (generate_node_arithmetic _ _ Hty).
  - intros argv env c ty n Hc Hty Hr.
    destruct (lex_repeat_byte c ty (S n) Hc) as [Hall Hlen].
    assert (Hp : is_primitive ty = true) by (destruct ty; try discriminate; reflexivity).
    assert (Hne : lex (repeat_byte c (S n)) <> [])
      by (intros E; rewrite E in Hlen; discriminate).
    pose proof (parse_single_run ty _ Hp Hne Hall) as Hparse. rewrite Hlen in Hparse.
    unfold main. rewrite Hr. cbn zeta. rewrite Hparse.
    do 3 f_equal. rewrite generate_code_cons.
    rewrite (generate_node_arithmetic (mkASTNode _ _ _ _) _ Hty).
    cbn [node_type count]. unfold generate_code. cbn [for_each_node Z.to_nat List.length Z.of_nat].
    now rewrite append_nil_r.
Qed.

Lemma arithmetic_runs_are_one_statement_witness :
  run_stdin ">>>>>" =
  Some (mkProcess (preamble +++ ("    ptr += 5;" +++ LF) +++ epilogue) EmptyString 0).
Proof.
  exact (proj2 arithmetic_runs_are_one_statement
           ["brainfuck2c"%string]
           (mkEnv (fun _ => Failed "No such file or directory") ">>>>>")
           ">"%char TOKEN_NEXT 4%nat eq_refl eq_refl eq_refl).
Defined.

(* ================================================================= *)
(** ** The dynamic arrays *)







(* ================================================================= *)
(** ** Freeing the tree *)

Lemma for_each_free_all (body : ASTNode -> list (list ASTNode)) (nodes : list ASTNode) :
  for_each_free body nodes (List.length nodes) = flat_map body nodes.
Proof. induction nodes as [|node nodes IH]; [reflexivity|]. cbn. now rewrite IH. Qed.

Lemma flat_map_Permutation (f g : ASTNode -> list (list ASTNode)) (nodes : list ASTNode) :
  Forall (fun node => shaped_node node = true -> Permutation (f node) (g node)) nodes ->
  forallb shaped_node nodes = true ->
  Permutation (flat_map f nodes) (flat_map g nodes).
Proof.
  induction 1 as [|node nodes Hnode _ IH]; intros Hs; [constructor|].
  cbn in Hs |- *. apply andb_true_iff in Hs as [Hn Hs].
  apply Permutation_app; auto.
Qed.

Lemma free_ast_node_arrays (node : ASTNode) :
  shaped_node node = true -> Permutation (free_ast_node node) (node_arrays node).
Proof.
  induction node as [ty cnt numCh | ty cnt kids numCh IH] using ASTNode_tree_ind;
    intros Hs.
  - destruct ty; constructor.
  - cbn [shaped_node] in Hs. apply andb_true_iff in Hs as [Hshape Hkids].
    unfold node_shape in Hshape. cbn [node_type children count numChildren] in Hshape.
    destruct ty; try discriminate.
    apply andb_true_iff in Hshape as [_ Hnum]. apply Z.eqb_eq in Hnum. subst numCh.
    cbn [free_ast_node node_arrays]. rewrite Nat2Z.id, for_each_free_all.
    rewrite <- Permutation_cons_append. constructor.
    now apply flat_map_Permutation.
Qed.

Lemma cleanup_arrays (ast : list ASTNode) :
  shaped ast = true -> Permutation (cleanup ast) (tree_arrays ast).
Proof.
  intros Hs. unfold cleanup, free_ast, tree_arrays.
  rewrite Nat2Z.id, for_each_free_all, <- Permutation_cons_append. constructor.
  apply flat_map_Permutation; [|exact Hs].
  apply Forall_forall. intros node _. apply free_ast_node_arrays.
Qed.

(** The array of a node of an array of a tree is an array of the tree. *)
Lemma node_arrays_below (node : ASTNode) :
  forall level parent kids,
    In level (node_arrays node) -> In parent level -> children parent = Some kids ->
    In kids (node_arrays node).
Proof.
  induction node as [ty cnt numCh | ty cnt ks numCh IH] using ASTNode_tree_ind;
    intros level parent kids Hl Hp Hch; [contradiction|].
  cbn [node_arrays] in Hl |- *. right. apply in_flat_map.
  destruct Hl as [<- | Hl].
  - exists parent. split; [exact Hp|].
    destruct parent as [pty pcnt pch pnum]. cbn in Hch. subst pch. now left.
  - apply in_flat_map in Hl as (k & Hk & Hl). exists k. split; [exact Hk|].
    rewrite Forall_forall in IH. now apply (IH k Hk level parent).
Qed.

Lemma Level_tree_arrays (root level : list ASTNode) :
  Level root level -> In level (tree_arrays root).
Proof.
  induction 1 as [|level kids parent _ IH Hp Hch]; [now left|].
  right. apply in_flat_map. destruct IH as [<- | IH].
  - exists parent. split; [exact Hp|].
    destruct parent as [pty pcnt pch pnum]. cbn in Hch. subst pch. now left.
  - apply in_flat_map in IH as (k & Hk & Hl). exists k. split; [exact Hk|].
    now apply (node_arrays_below k level parent).
Qed.

Lemma count_type_app (ty : TokenType) (a b : list Token) :
  count_type ty (a ++ b) = (count_type ty a + count_type ty b)%nat.
Proof. unfold count_type. now rewrite filter_app, length_app. Qed.

Lemma count_type_run (ty ty' : TokenType) (run : list Token) :
  Forall (fun t => type t = ty) run -> ty <> ty' -> count_type ty' run = O.
Proof.
  intros Hall Hne. induction Hall as [|t run Ht _ IH]; [reflexivity|].
  rewrite count_type_cons, Ht, IH.
  now destruct (TokenType_eqb_spec ty ty').
Qed.

(** One array below the root for every open marker. *)
Lemma Items_arrays tokens nodes :
  Items tokens nodes ->
  List.length (flat_map node_arrays nodes) = count_type TOKEN_LOOP_START tokens.
Proof.
  induction 1 as [|o c body rest kids nodes Ho Hc _ IHb _ IHr
                  |ty run rest nodes Hp Hne Hall Hnext _ IHr].
  - reflexivity.
  - cbn [flat_map node_arrays]. rewrite length_app. cbn [List.length].
    rewrite IHb, IHr.
    rewrite count_type_cons, Ho, count_type_app, count_type_cons, Hc. cbn. lia.
  - cbn [flat_map node_arrays app]. rewrite IHr, count_type_app.
    rewrite (count_type_run ty TOKEN_LOOP_START run Hall); [reflexivity|].
    apply primitive_not_bracket in Hp. tauto.
Qed.

(** X15: the tree is freed whole: on a run that succeeds, the arrays that
    [free_ast] and the last [free] of [main] hand to [free] are the arrays
    of the tree, each as often as the tree holds it, the root array and the
    array of every loop among them; they are one more than the open
    markers of the source. *)
Theorem tree_is_freed_whole :
  forall (tokens : list Token) (ast : list ASTNode),
    parseTokens tokens = Ret ast ->
    Permutation (cleanup ast) (tree_arrays ast) /\
    (forall level, Level ast level -> In level (cleanup ast)) /\
    List.length (cleanup ast) = S (count_type TOKEN_LOOP_START tokens).
Proof.
  intros tokens ast H. apply parseTokens_Items in H.
  pose proof (cleanup_arrays ast (Items_shaped _ _ H)) as Hperm.
  split; [exact Hperm|]. split.
  - intros level Hl. apply (Permutation_in _ (Permutation_sym Hperm)).
    now apply Level_tree_arrays.
  - rewrite (Permutation_length Hperm). unfold tree_arrays. cbn [List.length].
    now rewrite (Items_arrays _ _ H).
Qed.

Lemma tree_is_freed_whole_witness :
  Permutation
    (cleanup [mkASTNode TOKEN_LOOP_START 0
                (Some [mkASTNode TOKEN_LOOP_START 0 (Some []) 0]) 1;
              mkASTNode TOKEN_PLUS 1 None 0])
    (tree_arrays [mkASTNode TOKEN_LOOP_START 0
                    (Some [mkASTNode TOKEN_LOOP_START 0 (Some []) 0]) 1;
                  mkASTNode TOKEN_PLUS 1 None 0]).
Proof. exact (proj1 (tree_is_freed_whole (lex "[[]]+") _ eq_refl)). Defined.

(* ================================================================= *)
(** ** Indentation *)

Lemma indent_text_within_line (a b : string) :
  no_LF a = true -> indent_text false (a +++ b) = a +++ indent_text false b.
Proof.
  induction a as [|c a IH]; intros H; [reflexivity|].
  cbn in H |- *. apply andb_true_iff in H as [Hc H].
  apply negb_true_iff in Hc. now rewrite Hc, IH.
Qed.

(** The first bytes of a line: the indentation, then a byte of the
    statement. *)
Lemma indent_text_line_start (level : nat) (c : ascii) (b : string) :
  Ascii.eqb c "010"%char = false ->
  indent_text true (print_indent level +++ String c b) =
  print_indent (S level) +++ String c (indent_text false b).
Proof.
  intros Hc. destruct level as [|level].
  - cbn. now rewrite Hc.
  - change (print_indent (S level)) with ("    " +++ print_indent level).
    rewrite append_assoc.
    change (indent_text true ("    " +++ print_indent level +++ String c b))
      with ("    " +++ "    " +++ indent_text false (print_indent level +++ String c b)).
    rewrite indent_text_within_line.
    + cbn [indent_text]. rewrite Hc. reflexivity.
    + clear. induction level; [reflexivity | exact IHlevel].
Qed.

Lemma no_LF_printf_d (n : Z) : no_LF (printf_d n) = true.
Proof.
  assert (H : forall u, no_LF (NilEmpty.string_of_uint u) = true)
    by (induction u; cbn; auto).
  unfold printf_d. destruct (Z.to_int n) as [d|d]; destruct d; cbn; auto.
Qed.

Lemma for_each_node_indent (level : nat) (kids : list ASTNode) :
  Forall (fun node => forall k rest,
              indent_text true (generate_node node k +++ rest) =
              generate_node node (S k) +++ indent_text true rest) kids ->
  forall n rest,
    indent_text true (for_each_node (fun child => generate_node child level) kids n
                        +++ rest) =
    for_each_node (fun child => generate_node child (S level)) kids n
      +++ indent_text true rest.
Proof.
  induction 1 as [|kid kids Hkid _ IH]; intros [|n] rest; try reflexivity.
  cbn [for_each_node]. now rewrite !append_assoc, Hkid, IH.
Qed.

Lemma generate_node_indent (node : ASTNode) :
  forall k rest,
    indent_text true (generate_node node k +++ rest) =
    generate_node node (S k) +++ indent_text true rest.
Proof.
  induction node as [ty cnt numCh | ty cnt kids numCh IH] using ASTNode_tree_ind;
    intros k rest.
  - destruct ty; cbn [generate_node]; try destruct (cnt =? 1);
      indent_lines append_assoc indent_text_line_start indent_text_within_line
                   no_LF_printf_d append_nil_r
                   ltac:(cbn [indent_text String.append LF Ascii.eqb Bool.eqb andb]).
  - pose proof (for_each_node_indent (S k) kids IH (Z.to_nat numCh)) as Hkids.
    destruct ty; cbn [generate_node]; try destruct (cnt =? 1);
      indent_lines append_assoc indent_text_line_start indent_text_within_line
                   no_LF_printf_d Hkids
                   ltac:(cbn [indent_text String.append LF Ascii.eqb Bool.eqb andb]).
Qed.

(** X16: indentation is one uniform shift: the code generated one level
    deeper is the code generated at a level with four spaces put before
    every line, for any tree; nothing else in the text depends on the
    level. *)
Theorem deeper_level_shifts_every_line :
  forall (nodes : list ASTNode) (numNodes : Z) (indent_level : nat),
    generate_code nodes numNodes (S indent_level) =
    indent_text true (generate_code nodes numNodes indent_level).
Proof.
  intros nodes numNodes k. unfold generate_code.
  rewrite <- (append_nil_r
                (for_each_node (fun node => generate_node node k) nodes
                               (Z.to_nat numNodes))).
  rewrite for_each_node_indent; [symmetry; apply append_nil_r|].
  apply Forall_forall. intros node _. apply generate_node_indent.
Qed.

(* ================================================================= *)
(** ** The numbers of a run *)


